(** * VocalEdge: the voice-analysis core of [main.py]

    A shallow embedding of [analyze_voice] and of the numpy / scipy
    primitives it calls, together with the properties of the scoring
    policy, the normaliser, the pause loop, the pitch smoothing and the
    filler estimate.

    Modelling conventions.
    - Floating-point quantities (samples, pitch, energy, gaps, the score)
      are exact rationals [Q]; equality of such values is [==].
      Rounding is therefore outside the model.
    - Python integers (counts, sample positions, the sample rate) are [Z].
    - numpy arrays are lists; a two-dimensional array is the list of its
      rows.
    - A failing library call is an explicit [Err]. *)

From Stdlib Require Import String QArith Qabs ZArith Bool List Lia Lqa.
Import ListNotations.

Open Scope Q_scope.

(** ** Results of calls that may raise *)

Inductive error : Type :=
| ValueError         (* an exception: a reduction over an empty array *)
| DivisionByZero.    (* a quotient by zero, which numpy turns into inf or nan *)

Inductive result (A : Type) : Type :=
| Ok (a : A)
| Err (e : error).

Arguments Ok {A} a.
Arguments Err {A} e.

Definition bind {A B : Type} (r : result A) (k : A -> result B) : result B :=
  match r with
  | Ok a => k a
  | Err e => Err e
  end.

Notation "x <- r ;; k" := (bind r (fun x => k))
  (at level 61, r at next level, right associativity).

(** ** The numpy and Python primitives the code calls *)

Module Np.

(** [np.maximum a b] and [np.minimum a b] on scalars. *)
Definition maximum (a b : Q) : Q := if Qlt_le_dec a b then b else a.
Definition minimum (a b : Q) : Q := if Qlt_le_dec b a then b else a.

(** [np.clip x lo hi] is [np.minimum (np.maximum x lo) hi]. *)
Definition clip (x lo hi : Q) : Q := minimum (maximum x lo) hi.

(** Python's builtin [max a b]: the first argument unless the second is
    strictly greater. *)
Definition py_max (a b : Q) : Q := if Qlt_le_dec a b then b else a.

(** [np.abs] on an array. *)
Definition abs (y : list Q) : list Q := map Qabs y.

(** [np.max]: raises [ValueError] on an empty array. *)
Definition max (xs : list Q) : result Q :=
  match xs with
  | [] => Err ValueError
  | x :: rest => Ok (fold_left maximum rest x)
  end.

(** [y / d] for an array [y] and a scalar [d].  numpy answers a zero
    divisor with inf or nan and a warning; neither is a rational, so the
    model reports the event. *)
Definition true_divide (y : list Q) (d : Q) : result (list Q) :=
  if Qeq_bool d 0 then Err DivisionByZero
  else Ok (map (fun x => x / d) y).

Definition sum (xs : list Q) : Q := fold_left Qplus xs 0.

(** [np.mean]: the mean of an empty array is nan (0/0). *)
Definition mean (xs : list Q) : result Q :=
  match xs with
  | [] => Err DivisionByZero
  | _ => Ok (sum xs / inject_Z (Z.of_nat (length xs)))
  end.

(** [np.std]: the square root of the mean squared deviation.  The square
    root is supplied by the caller. *)
Definition std (sqrt : Q -> Q) (xs : list Q) : result Q :=
  m <- mean xs ;;
  v <- mean (map (fun x => (x - m) * (x - m)) xs) ;;
  Ok (sqrt v).

(** [np.argmax]: the first position of the greatest entry. *)
Fixpoint argmax_from (best : Q) (best_i i : nat) (xs : list Q) : nat :=
  match xs with
  | [] => best_i
  | x :: rest =>
      if Qlt_le_dec best x then argmax_from x i (S i) rest
      else argmax_from best best_i (S i) rest
  end.

Definition argmax (xs : list Q) : result nat :=
  match xs with
  | [] => Err ValueError
  | x :: rest => Ok (argmax_from x 0%nat 1%nat rest)
  end.

(** Inner product of two arrays of equal length. *)
Fixpoint dot (a v : list Q) : Q :=
  match a, v with
  | x :: a', w :: v' => x * w + dot a' v'
  | _, _ => 0
  end.

(** [np.convolve a v mode='valid']: the arrays are swapped when [v] is the
    longer one, and the result has [max - min + 1] entries; an empty
    argument raises [ValueError]. *)
Definition convolve_valid (a v : list Q) : result (list Q) :=
  match a, v with
  | [], _ | _, [] => Err ValueError
  | _, _ =>
      let (long, short) :=
        if (length a <? length v)%nat then (v, a) else (a, v) in
      let m := length short in
      Ok (map (fun k => dot (firstn m (skipn k long)) (rev short))
              (seq 0 (length long - m + 1)))
  end.

(** [np.ones n / d]. *)
Definition ones_over (n : nat) (d : Q) : list Q := repeat (1 / d) n.

End Np.

(** ** Data model *)

(** The scalar features [analyze_voice] derives from one buffer. *)
Record FeatureSummary : Type := mkFeatures {
  pitch_mean : Q;
  pitch_std : Q;
  energy_mean : Q;
  energy_std : Q;
  pause_count : Z;
  total_silence_duration : Q;
  filler_count : Z
}.

(** ** Confidence score (main.py, lines 60-72) *)

Definition normalized_pitch_std (pitch_std : Q) : Q :=
  Np.clip (pitch_std / 50) 0 1.

Definition normalized_energy (energy_mean : Q) : Q :=
  Np.clip (energy_mean * 50) 0 1.

Definition normalized_fillers (filler_count : Z) : Q :=
  Np.clip (inject_Z filler_count / 10) 0 1.

Definition normalized_pauses (pause_count : Z) : Q :=
  Np.clip (inject_Z pause_count / 5) 0 1.

(** The score as the code computes it: start at 100, subtract the four
    deductions one after the other, then take [max (score, 0)]. *)
Definition score_of (pitch_std energy_mean : Q) (filler_count pause_count : Z) : Q :=
  let confidence_score := 100 in
  let confidence_score := confidence_score - normalized_pitch_std pitch_std * 20 in
  let confidence_score := confidence_score - (1 - normalized_energy energy_mean) * 25 in
  let confidence_score := confidence_score - normalized_fillers filler_count * 30 in
  let confidence_score := confidence_score - normalized_pauses pause_count * 25 in
  Np.py_max confidence_score 0.

Definition confidence_score (fs : FeatureSummary) : Q :=
  score_of (pitch_std fs) (energy_mean fs) (filler_count fs) (pause_count fs).

(** The score as the specification words it. *)
Definition spec_score (fs : FeatureSummary) : Q :=
  Np.maximum 0
    (100 - Np.clip (pitch_std fs / 50) 0 1 * 20
         - (1 - Np.clip (energy_mean fs * 50) 0 1) * 25
         - Np.clip (inject_Z (filler_count fs) / 10) 0 1 * 30
         - Np.clip (inject_Z (pause_count fs) / 5) 0 1 * 25).

(** ** Confidence level (main.py, lines 75-80) *)

Definition confidence_level (confidence_score : Q) : string :=
  if Qle_bool 75 confidence_score then "Confident"%string
  else if Qle_bool 50 confidence_score then "Moderate"%string
  else "Needs Improvement"%string.

(** ** Suggestions (main.py, lines 83-91) *)

Definition msg_pitch : string :=
  "Increase pitch variation to sound more engaging.".
Definition msg_energy : string :=
  "Speak with more volume and energy.".
Definition msg_fillers : string :=
  "Practice reducing filler words like 'um' and 'uh'.".
Definition msg_pauses : string :=
  "Minimize long pauses for smoother delivery.".

Definition Qlt_bool (a b : Q) : bool := negb (Qle_bool b a).

(** [suggestions.append(m)] guarded by [if c]. *)
Definition append_if (c : bool) (m : string) (suggestions : list string) : list string :=
  if c then suggestions ++ [m] else suggestions.

Definition suggestions_of (pitch_std energy_mean : Q) (filler_count pause_count : Z)
  : list string :=
  let suggestions := [] in
  let suggestions := append_if (Qlt_bool pitch_std 20) msg_pitch suggestions in
  let suggestions := append_if (Qlt_bool energy_mean (2 # 100)) msg_energy suggestions in
  let suggestions := append_if (3 <=? filler_count)%Z msg_fillers suggestions in
  let suggestions := append_if (3 <=? pause_count)%Z msg_pauses suggestions in
  suggestions.

Definition suggestions (fs : FeatureSummary) : list string :=
  suggestions_of (pitch_std fs) (energy_mean fs) (filler_count fs) (pause_count fs).

(** The rule table of the specification: each rule is a test on the raw
    summary and the message it contributes, in the order of evaluation. *)
Definition rule_table : list ((FeatureSummary -> bool) * string) :=
  [ (fun fs => Qlt_bool (pitch_std fs) 20, msg_pitch);
    (fun fs => Qlt_bool (energy_mean fs) (2 # 100), msg_energy);
    (fun fs => (3 <=? filler_count fs)%Z, msg_fillers);
    (fun fs => (3 <=? pause_count fs)%Z, msg_pauses) ].

Definition fired (fs : FeatureSummary) : list string :=
  map snd (filter (fun r => fst r fs) rule_table).

(** ** Signal normalisation (main.py, line 17) *)

Definition epsilon : Q := 1 # 100000.

Definition normalize (y : list Q) : result (list Q) :=
  peak <- Np.max (Np.abs y) ;;
  Np.true_divide y (peak + epsilon).

Definition all_zero (y : list Q) : Prop := Forall (fun x => x == 0) y.

(** ** Pitch series (main.py, lines 20-31) *)

Definition matrix : Type := list (list Q).

(** [m.shape[1]], [m[:, t]] and [m[i, t]]. *)
Definition shape1 (m : matrix) : nat :=
  match m with
  | [] => 0%nat
  | row :: _ => length row
  end.

Definition column (m : matrix) (t : nat) : list Q :=
  map (fun row => nth t row 0) m.

Definition entry (m : matrix) (i t : nat) : Q := nth t (nth i m []) 0.

(** The loop over the frames: the pitch of the strongest bin is kept when
    it exceeds 50 Hz. *)
Fixpoint collect_pitches (pitches magnitudes : matrix) (frames : list nat)
  (pitch_values : list Q) : result (list Q) :=
  match frames with
  | [] => Ok pitch_values
  | t :: frames' =>
      index <- Np.argmax (column magnitudes t) ;;
      let pitch := entry pitches index t in
      collect_pitches pitches magnitudes frames'
        (if Qlt_bool 50 pitch then pitch_values ++ [pitch] else pitch_values)
  end.

(** *** [scipy.ndimage.median_filter] with its default arguments

    [median_filter(input, size)] has [mode='reflect'] and [origin=0] by
    default: the array is extended by mirroring it about its two ends,
    the end sample included ([d c b a | a b c d | d c b a]), the window
    of [size] samples is centred on each position, and the output is the
    entry of rank [size / 2] of the sorted window. *)

Fixpoint insert_sorted (x : Q) (l : list Q) : list Q :=
  match l with
  | [] => [x]
  | h :: t => if Qle_bool x h then x :: l else h :: insert_sorted x t
  end.

Definition sort (l : list Q) : list Q := fold_right insert_sorted [] l.

Definition rank_median (w : list Q) : Q := nth (length w / 2) (sort w) 0.

(** Position in the array of the (possibly out of range) position [i] of
    the mirrored extension. *)
Definition reflect (n : nat) (i : Z) : nat :=
  let m := (i mod (2 * Z.of_nat n))%Z in
  Z.to_nat (if (m <? Z.of_nat n)%Z then m else (2 * Z.of_nat n - 1 - m)%Z).

Definition window (xs : list Q) (size i : nat) : list Q :=
  map (fun k => nth (reflect (length xs)
                       (Z.of_nat i + Z.of_nat k - Z.of_nat (size / 2))) xs 0)
      (seq 0 size).

Definition median_filter (xs : list Q) (size : nat) : list Q :=
  map (fun i => rank_median (window xs size i)) (seq 0 (length xs)).

(** Lines 28-29: the series is smoothed only when it has more than five
    entries. *)
Definition smooth (pitch_values : list Q) : list Q :=
  if (5 <? length pitch_values)%nat then median_filter pitch_values 5
  else pitch_values.

(** The part of the series a window of five centred on [i] covers without
    leaving the series: positions [i-2 .. i+2] cut to [0 .. n-1]. *)
Definition available_window (xs : list Q) (i : nat) : list Q :=
  firstn (Nat.min (length xs) (i + 3) - (i - 2)) (skipn (i - 2) xs).

(** ** Pause detection (main.py, lines 40-46) *)

Definition span : Type := (Z * Z)%type.

Definition min_pause : Q := 25 # 100.

(** One turn of the loop at index [i].  The state is
    [(total_silence_duration, pause_count)].  The quotient by [rate] is
    the rational one: the model covers a non-zero sample rate (at rate 0
    numpy gives inf or nan). *)
Definition pause_step (non_silent : list span) (rate : Z)
  (st : Q * Z) (i : nat) : Q * Z :=
  let gap :=
    inject_Z (fst (nth i non_silent (0, 0)%Z)
              - snd (nth (i - 1) non_silent (0, 0)%Z))
    / inject_Z rate in
  if Qlt_bool min_pause gap then (fst st + gap, (snd st + 1)%Z) else st.

(** [for i in range(1, len(non_silent))], from the state [(0, 0)]. *)
Definition detect_pauses (non_silent : list span) (rate : Z) : Q * Z :=
  fold_left (pause_step non_silent rate)
            (seq 1 (length non_silent - 1)) (0, 0%Z).

(** The specification's reading: the gaps between temporally adjacent
    spans, and among them the ones longer than the minimum pause. *)
Definition gap_between (prev next : span) (rate : Z) : Q :=
  inject_Z (fst next - snd prev) / inject_Z rate.

Fixpoint adjacent_gaps (spans : list span) (rate : Z) : list Q :=
  match spans with
  | prev :: ((next :: _) as rest) =>
      gap_between prev next rate :: adjacent_gaps rest rate
  | _ => []
  end.

Definition is_pause (gap : Q) : bool := Qlt_bool min_pause gap.

Definition pauses (spans : list span) (rate : Z) : list Q :=
  filter is_pause (adjacent_gaps spans rate).

Fixpoint total (gaps : list Q) : Q :=
  match gaps with
  | [] => 0
  | g :: rest => g + total rest
  end.

(** ** Filler estimate (main.py, lines 49-51) *)

Definition filler_count_of (peaks : list nat) : Z :=
  (Z.of_nat (length peaks) / 30)%Z.

(** ** The signal-processing routines of librosa and scipy

    [analyze_voice] obtains the pitch matrices, the frame energies, the
    voiced spans and the envelope peaks from library routines; the
    embedding takes them as an interface. *)

Class AudioLib : Type := {
  (** [librosa.piptrack(y=y, sr=rate, fmin=fmin, fmax=fmax)]:
      the pair [(pitches, magnitudes)]. *)
  piptrack : list Q -> Z -> Q -> Q -> matrix * matrix;
  (** [librosa.feature.rms(y=y)[0]]: one energy per frame. *)
  rms : list Q -> list Q;
  (** [librosa.effects.split(y, top_db=top_db)]: the voiced spans. *)
  effects_split : list Q -> Q -> list span;
  (** [scipy.signal.find_peaks(x, height=height, distance=distance)[0]]:
      the positions of the peaks. *)
  find_peaks : list Q -> Q -> nat -> list nat;
  (** The square root inside [np.std]. *)
  sqrt : Q -> Q
}.

(** What the scenario of a silent buffer uses of these routines. *)
Record SilenceLaws (L : AudioLib) : Prop := {
  (** no pitch is assigned in a frame without energy: the pitch matrix
      of a silent buffer is zero *)
  piptrack_silent : forall y rate fmin fmax,
    all_zero y -> Forall all_zero (fst (piptrack y rate fmin fmax));
  (** a non-empty buffer has at least one frame, and the energy of a
      silent frame is zero *)
  rms_silent : forall y,
    y <> [] -> all_zero y -> rms y <> [] /\ all_zero (rms y);
  (** a silent buffer is never cut into several spans *)
  split_silent : forall y top_db,
    all_zero y -> (length (effects_split y top_db) <= 1)%nat;
  (** a reported peak is a position of the signal whose sample reaches
      the required height *)
  find_peaks_height : forall x height distance p,
    In p (find_peaks x height distance) ->
    exists v, nth_error x p = Some v /\ height <= v;
  sqrt_zero : forall v, v == 0 -> sqrt v == 0
}.

(** ** The analysis (main.py, lines 16-94) *)

(** What [analyze_voice] returns.  The total silence is only printed by
    the code; the record keeps it with the other features. *)
Record AnalysisResult : Type := mkResult {
  level : string;
  score : Q;
  advice : list string;
  features : FeatureSummary
}.

Definition analyze_voice {L : AudioLib} (y : list Q) (rate : Z)
  : result AnalysisResult :=
  y <- normalize y ;;
  let '(pitches, magnitudes) := piptrack y rate 80 600 in
  pitch_values <-
    collect_pitches pitches magnitudes (seq 0 (shape1 magnitudes)) [] ;;
  let pitch_values := smooth pitch_values in
  pitch_std <- (if (0 <? length pitch_values)%nat
                then Np.std sqrt pitch_values else Ok 0) ;;
  pitch_mean <- (if (0 <? length pitch_values)%nat
                 then Np.mean pitch_values else Ok 0) ;;
  let energy := rms y in
  energy_mean <- Np.mean energy ;;
  energy_std <- Np.std sqrt energy ;;
  let non_silent := effects_split y 30 in
  let '(total_silence_duration, pause_count) :=
    detect_pauses non_silent rate in
  smoothed <- Np.convolve_valid (Np.abs y) (Np.ones_over 1000 1000) ;;
  let peaks := find_peaks smoothed (1 # 100) 1000 in
  let filler_count := filler_count_of peaks in
  let confidence_score :=
    score_of pitch_std energy_mean filler_count pause_count in
  Ok {| level := confidence_level confidence_score;
        score := confidence_score;
        advice :=
          suggestions_of pitch_std energy_mean filler_count pause_count;
        features :=
          {| pitch_mean := pitch_mean;
             pitch_std := pitch_std;
             energy_mean := energy_mean;
             energy_std := energy_std;
             pause_count := pause_count;
             total_silence_duration := total_silence_duration;
             filler_count := filler_count |} |}.

(** A small stand-in for the library, used to run the analysis: one
    frame per sample, no pitch, one span over the whole buffer, and a
    peak wherever the signal reaches the height. *)
Definition positions_reaching (height : Q) (x : list Q) : list nat :=
  filter (fun p => Qle_bool height (nth p x 0)) (seq 0 (length x)).

Definition toy_lib : AudioLib := {|
  piptrack := fun y _ _ _ => ([map (fun _ => 0) y], [map Qabs y]);
  rms := fun y => map Qabs y;
  effects_split := fun y _ => [(0%Z, Z.of_nat (length y))];
  find_peaks := fun x height _ => positions_reaching height x;
  sqrt := fun v => v
|}.

(** ** Auxiliary definitions *)

(** The score before the final [max]: 100 less the four deductions. *)
Definition raw_score (ps em : Q) (fc pc : Z) : Q :=
  100 - normalized_pitch_std ps * 20 - (1 - normalized_energy em) * 25
      - normalized_fillers fc * 30 - normalized_pauses pc * 25.

(** One turn of the pause loop, seen from the gap it measures. *)
Definition gap_step (st : Q * Z) (gap : Q) : Q * Z :=
  if is_pause gap then (fst st + gap, (snd st + 1)%Z) else st.

(** The reading "edge frames use the available sub-window": the output at
    every position is a median [med] of the samples of the window that
    lie inside the series, that is, a function of these samples in
    sorted order. *)
Definition median_of_available_window (med : list Q -> Q) : Prop :=
  forall (xs : list Q) (i : nat),
    (5 < length xs)%nat -> (i < length xs)%nat ->
    nth i (smooth xs) 0 = med (sort (available_window xs i)).

(** The summary on which exactly the chosen suggestion tests hold. *)
Definition summary_firing (b1 b2 b3 b4 : bool) : FeatureSummary :=
  {| pitch_mean := 120;
     pitch_std := if b1 then 0 else 20;
     energy_mean := if b2 then 0 else 2 # 100;
     energy_std := 0;
     pause_count := if b4 then 3 else 2;
     total_silence_duration := 0;
     filler_count := if b3 then 3 else 2 |}.

(** ** Sample inputs *)

(** A quiet delivery, the same with other pitch and energy statistics
    that the score does not read, and four variations of it in one
    feature each. *)
Definition quiet_talk : FeatureSummary :=
  mkFeatures 150 25 (1 # 100) (1 # 200) 2 (7 # 10) 1.
Definition quiet_talk_other_means : FeatureSummary :=
  mkFeatures 180 (50 # 2) (2 # 200) (1 # 300) 2 (9 # 10) 1.
Definition more_fillers : FeatureSummary :=
  mkFeatures 150 25 (1 # 100) (1 # 200) 2 (7 # 10) 4.
Definition more_pauses : FeatureSummary :=
  mkFeatures 150 25 (1 # 100) (1 # 200) 3 (7 # 10) 1.
Definition more_pitch_spread : FeatureSummary :=
  mkFeatures 150 40 (1 # 100) (1 # 200) 2 (7 # 10) 1.
Definition more_energy : FeatureSummary :=
  mkFeatures 150 25 (15 # 1000) (1 # 200) 2 (7 # 10) 1.

(** A delivery on which no suggestion test holds. *)
Definition lively_talk : FeatureSummary :=
  mkFeatures 160 35 (4 # 100) (1 # 100) 1 (3 # 10) 0.

(** Buffers: four samples with peak 3, three silent samples, twelve
    samples at full scale. *)
Definition loud_buffer : list Q := [1 # 2; - (3 # 1); 0; 2 # 1].
Definition silence : list Q := [0; 0; 0].
Definition steady_tone : list Q := repeat 1 12.

(** Four voiced spans at 22050 Hz, with gaps of 0.5 s, 0.1 s and 1 s. *)
Definition three_bursts : list span :=
  [(0, 22050); (33075, 44100); (46305, 66150); (88200, 99225)]%Z.

(** Two pitch series whose windows at position 1 cover the same four
    samples. *)
Definition rising_series : list Q := [0; 1; 2; 3; 4; 5].
Definition shuffled_series : list Q := [3; 0; 1; 2; 4; 5].

(** ** Further auxiliary definitions *)

(** Spans as [librosa.effects.split] lists them: each one ends no
    earlier than it starts, and the next one starts no earlier than the
    previous one ends. *)
Fixpoint ordered_spans (spans : list span) : Prop :=
  match spans with
  | [] => True
  | a :: rest =>
      (fst a <= snd a)%Z /\
      match rest with
      | [] => True
      | b :: _ => (snd a <= fst b)%Z
      end /\
      ordered_spans rest
  end.

(** The row [np.argmax(magnitudes[:, t])] selects in frame [t]. *)
Definition strongest_bin (magnitudes : matrix) (t : nat) : nat :=
  match column magnitudes t with
  | [] => 0%nat
  | x :: rest => Np.argmax_from x 0 1 rest
  end.

(** How many entries of a list are at most, or at least, a value. *)
Definition count_le (c : Q) (l : list Q) : nat :=
  length (filter (fun x => Qle_bool x c) l).
Definition count_ge (c : Q) (l : list Q) : nat :=
  length (filter (fun x => Qle_bool c x) l).

(** A series that is [c] everywhere except perhaps at position [j]. *)
Definition flat_except (c : Q) (j : nat) (xs : list Q) : Prop :=
  forall k : nat, (k < length xs)%nat -> k <> j -> nth k xs 0 == c.

(** A pitch series with a lone spike. *)
Definition spiky_series : list Q := [120; 120; 480; 120; 120; 120; 120].

(** A pitch matrix and a magnitude matrix of two bins and two frames. *)
Definition sample_pitches : matrix := [[100; 40]; [200; 300]].
Definition sample_magnitudes : matrix := [[1; 5]; [2; 3]].

(** A list in ascending order: every entry is at most the ones after
    it. *)
Fixpoint ascending (l : list Q) : Prop :=
  match l with
  | [] => True
  | h :: t => Forall (fun x => h <= x) t /\ ascending t
  end.

(** ** Recording (main.py, lines 10-14 and 100-121) *)

Definition CHUNK : Z := 1024.
Definition RATE : Z := 22050.
Definition RECORD_SECONDS : Z := 5.

(** Python's [int] on a float: truncation toward zero. *)
Definition py_int (q : Q) : Z := Z.quot (Qnum q) (Z.pos (Qden q)).

(** The number of turns of
    [for _ in range(int(rate / chunk * seconds))]. *)
Definition reads (rate chunk seconds : Z) : nat :=
  Z.to_nat (py_int (inject_Z rate / inject_Z chunk * inject_Z seconds)).

(** An open input stream: the bytes the device delivers, and how many
    of them have been read.  Samples are 16-bit (paInt16) on one
    channel, so a frame is two bytes. *)
Record stream : Type := mkStream {
  device : nat -> Byte.byte;
  position : nat
}.

(** [stream.read(num_frames, exception_on_overflow=False)]. *)
Definition stream_read (s : stream) (num_frames : Z)
  : list Byte.byte * stream :=
  let n := (2 * Z.to_nat num_frames)%nat in
  (map (device s) (seq (position s) n),
   {| device := device s; position := position s + n |}).

(** The loop that fills [frames]. *)
Fixpoint record_frames (turns : nat) (s : stream)
  (frames : list (list Byte.byte)) : list (list Byte.byte) * stream :=
  match turns with
  | O => (frames, s)
  | S turns' =>
      let (data, s') := stream_read s CHUNK in
      record_frames turns' s' (frames ++ [data])
  end.

(** A 16-bit sample from its two bytes, low byte first (the byte order
    of the machines the script runs on), in two's complement. *)
Definition int16_of (lo hi : Byte.byte) : Z :=
  let u := (Z.of_N (Byte.to_N lo) + 256 * Z.of_N (Byte.to_N hi))%Z in
  if (u <? 32768)%Z then u else (u - 65536)%Z.

(** [np.frombuffer(data, dtype=np.int16)]: raises [ValueError] when the
    size of the buffer is not a multiple of the sample size. *)
Fixpoint frombuffer_int16 (data : list Byte.byte) : result (list Z) :=
  match data with
  | [] => Ok []
  | [_] => Err ValueError
  | lo :: hi :: rest =>
      samples <- frombuffer_int16 rest ;;
      Ok (int16_of lo hi :: samples)
  end.

(** [record_and_process], from the open stream on: the frames are read,
    joined, decoded, converted to floating point and analysed. *)
Definition record_and_process {L : AudioLib} (s : stream)
  : result AnalysisResult :=
  let (frames, _) := record_frames (reads RATE CHUNK RECORD_SECONDS) s [] in
  let audio_data := concat frames in
  y <- frombuffer_int16 audio_data ;;
  analyze_voice (map inject_Z y) RATE.

(** ** Spacing of the envelope peaks *)

(** Peaks as [find_peaks(..., distance=d)] reports them: positions of
    the signal, in increasing order, neighbours at least [d] apart. *)
Fixpoint spaced_from (d prev : nat) (peaks : list nat) : Prop :=
  match peaks with
  | [] => True
  | p :: rest => (prev + d <= p)%nat /\ spaced_from d p rest
  end.

Definition spaced (d n : nat) (peaks : list nat) : Prop :=
  Forall (fun p => (p < n)%nat) peaks /\
  match peaks with
  | [] => True
  | p :: rest => spaced_from d p rest
  end.

Definition PeakSpacing (L : AudioLib) : Prop :=
  forall (x : list Q) (height : Q) (distance : nat),
    spaced distance (length x) (find_peaks x height distance).

(** A stand-in that respects the spacing: of the positions reaching the
    height it keeps the first, and then each one far enough from the
    last one kept. *)
Fixpoint thin (d : nat) (last : option nat) (ps : list nat) : list nat :=
  match ps with
  | [] => []
  | p :: rest =>
      match last with
      | None => p :: thin d (Some p) rest
      | Some q =>
          if (q + d <=? p)%nat then p :: thin d (Some p) rest
          else thin d last rest
      end
  end.

Definition toy_lib_spaced : AudioLib := {|
  piptrack := piptrack (AudioLib := toy_lib);
  rms := rms (AudioLib := toy_lib);
  effects_split := effects_split (AudioLib := toy_lib);
  find_peaks := fun x height distance =>
                  thin distance None (positions_reaching height x);
  sqrt := sqrt (AudioLib := toy_lib)
|}.

(** * Properties *)

(** ** Facts about the primitives *)

Lemma np_maximum_spec (a b : Q) :
  (a < b /\ Np.maximum a b = b) \/ (b <= a /\ Np.maximum a b = a).
Proof. unfold Np.maximum. destruct (Qlt_le_dec a b); auto. Qed.

Lemma np_minimum_spec (a b : Q) :
  (b < a /\ Np.minimum a b = b) \/ (a <= b /\ Np.minimum a b = a).
Proof. unfold Np.minimum. destruct (Qlt_le_dec b a); auto. Qed.

Lemma py_max_spec (a b : Q) :
  (a < b /\ Np.py_max a b = b) \/ (b <= a /\ Np.py_max a b = a).
Proof. unfold Np.py_max. destruct (Qlt_le_dec a b); auto. Qed.

Lemma clip_cases (x : Q) :
  (x < 0 /\ Np.clip x 0 1 = 0) \/
  (0 <= x <= 1 /\ Np.clip x 0 1 = x) \/
  (1 < x /\ Np.clip x 0 1 = 1).
Proof.
  unfold Np.clip, Np.minimum, Np.maximum.
  destruct (Qlt_le_dec x 0) as [Hx | Hx].
  - destruct (Qlt_le_dec 1 0) as [H10 | H10]; [lra | auto].
  - destruct (Qlt_le_dec 1 x) as [H1 | H1].
    + right; right; split; [lra | reflexivity].
    + right; left; split; [lra | reflexivity].
Qed.

Lemma clip_range (x : Q) : 0 <= Np.clip x 0 1 <= 1.
Proof.
  destruct (clip_cases x) as [[H E] | [[H E] | [H E]]]; rewrite E; lra.
Qed.

Lemma clip_mono (x y : Q) : x <= y -> Np.clip x 0 1 <= Np.clip y 0 1.
Proof.
  intros Hxy.
  destruct (clip_cases x) as [[Hx Ex] | [[Hx Ex] | [Hx Ex]]];
    destruct (clip_cases y) as [[Hy Ey] | [[Hy Ey] | [Hy Ey]]];
    rewrite Ex, Ey; lra.
Qed.

Lemma clip_compat (x y : Q) : x == y -> Np.clip x 0 1 == Np.clip y 0 1.
Proof.
  intros Hxy. apply Qle_antisym; apply clip_mono; lra.
Qed.

Lemma Qlt_bool_iff (a b : Q) : Qlt_bool a b = true <-> a < b.
Proof.
  unfold Qlt_bool. rewrite negb_true_iff.
  split; intros H.
  - destruct (Qlt_le_dec a b) as [Hlt | Hle]; [exact Hlt |].
    apply Qle_bool_iff in Hle. congruence.
  - destruct (Qle_bool b a) eqn:E; [| reflexivity].
    apply Qle_bool_iff in E. lra.
Qed.


(** ** The confidence score *)

Lemma score_of_unfold (ps em : Q) (fc pc : Z) :
  score_of ps em fc pc = Np.py_max (raw_score ps em fc pc) 0.
Proof. reflexivity. Qed.

Lemma raw_score_range (ps em : Q) (fc pc : Z) :
  0 <= raw_score ps em fc pc <= 100.
Proof.
  unfold raw_score, normalized_pitch_std, normalized_energy,
    normalized_fillers, normalized_pauses.
  pose proof (clip_range (ps / 50)).
  pose proof (clip_range (em * 50)).
  pose proof (clip_range (inject_Z fc / 10)).
  pose proof (clip_range (inject_Z pc / 5)).
  lra.
Qed.

(** The final [max] never changes the value: the deductions add up to at
    most 100. *)
Lemma score_of_raw (ps em : Q) (fc pc : Z) :
  score_of ps em fc pc = raw_score ps em fc pc.
Proof.
  rewrite score_of_unfold.
  pose proof (raw_score_range ps em fc pc) as Hr.
  destruct (py_max_spec (raw_score ps em fc pc) 0) as [[Hlt _] | [_ E]];
    [lra | exact E].
Qed.

Lemma inject_Z_div_le (a b : Z) (d : Q) :
  0 < d -> (a <= b)%Z -> inject_Z a / d <= inject_Z b / d.
Proof.
  intros Hd Hab.
  assert (Hq : inject_Z a <= inject_Z b) by (rewrite <- Zle_Qle; exact Hab).
  unfold Qdiv. apply Qmult_le_compat_r; [exact Hq |].
  apply Qlt_le_weak, Qinv_lt_0_compat, Hd.
Qed.

Lemma raw_score_compat (ps ps' em em' : Q) (fc pc : Z) :
  ps == ps' -> em == em' ->
  raw_score ps em fc pc == raw_score ps' em' fc pc.
Proof.
  intros Hps Hem. unfold raw_score, normalized_pitch_std, normalized_energy.
  assert (E1 : Np.clip (ps / 50) 0 1 == Np.clip (ps' / 50) 0 1)
    by (apply clip_compat; rewrite Hps; reflexivity).
  assert (E2 : Np.clip (em * 50) 0 1 == Np.clip (em' * 50) 0 1)
    by (apply clip_compat; rewrite Hem; reflexivity).
  lra.
Qed.

(** C1. For every feature summary the score computed by the code equals
    max(0, 100 - clip(pitch_std/50,0,1)*20 - (1 - clip(energy_mean*50,0,1))*25
    - clip(filler_count/10,0,1)*30 - clip(pause_count/5,0,1)*25), and it
    is a function of the four summaries alone: two summaries that agree
    on pitch deviation, energy mean, filler count and pause count get the
    same score. *)
Theorem confidence_score_formula (fs : FeatureSummary) :
  confidence_score fs == spec_score fs /\
  forall fs' : FeatureSummary,
    pitch_std fs == pitch_std fs' ->
    energy_mean fs == energy_mean fs' ->
    filler_count fs = filler_count fs' ->
    pause_count fs = pause_count fs' ->
    confidence_score fs == confidence_score fs'.
Proof.
  split.
  - unfold confidence_score, spec_score. rewrite score_of_raw.
    pose proof (raw_score_range (pitch_std fs) (energy_mean fs)
                  (filler_count fs) (pause_count fs)) as Hr.
    unfold raw_score, normalized_pitch_std, normalized_energy,
      normalized_fillers, normalized_pauses in Hr |- *.
    match goal with
    | |- _ == Np.maximum 0 ?e =>
        destruct (np_maximum_spec 0 e) as [[_ E] | [Hle E]]; rewrite E
    end.
    + reflexivity.
    + lra.
  - intros fs' Hps Hem Hfc Hpc. unfold confidence_score.
    rewrite !score_of_raw, <- Hfc, <- Hpc.
    apply raw_score_compat; assumption.
Qed.

Lemma confidence_score_formula_witness :
  confidence_score quiet_talk == spec_score quiet_talk /\
  confidence_score quiet_talk == confidence_score quiet_talk_other_means.
Proof.
  destruct (confidence_score_formula quiet_talk) as [Hspec Hpure].
  split; [exact Hspec |].
  apply Hpure; reflexivity.
Defined.

(** C2. For every feature summary the score lies in [0, 100]; with the
    other three inputs held fixed it does not increase when the filler
    count, the pause count or the pitch deviation grows, and it does not
    decrease when the energy mean grows. *)
Theorem confidence_score_range_monotone (fs fs' : FeatureSummary) :
  (0 <= confidence_score fs <= 100) /\
  (pitch_std fs == pitch_std fs' -> energy_mean fs == energy_mean fs' ->
   pause_count fs = pause_count fs' ->
   (filler_count fs <= filler_count fs')%Z ->
   confidence_score fs' <= confidence_score fs) /\
  (pitch_std fs == pitch_std fs' -> energy_mean fs == energy_mean fs' ->
   filler_count fs = filler_count fs' ->
   (pause_count fs <= pause_count fs')%Z ->
   confidence_score fs' <= confidence_score fs) /\
  (energy_mean fs == energy_mean fs' ->
   filler_count fs = filler_count fs' -> pause_count fs = pause_count fs' ->
   pitch_std fs <= pitch_std fs' ->
   confidence_score fs' <= confidence_score fs) /\
  (pitch_std fs == pitch_std fs' ->
   filler_count fs = filler_count fs' -> pause_count fs = pause_count fs' ->
   energy_mean fs <= energy_mean fs' ->
   confidence_score fs <= confidence_score fs').
Proof.
  unfold confidence_score. rewrite !score_of_raw.
  split; [apply raw_score_range |].
  repeat split.
  - intros Hps Hem Hpc Hfc. rewrite <- Hpc.
    rewrite <- (raw_score_compat _ _ _ _ (filler_count fs') (pause_count fs)
                  Hps Hem).
    unfold raw_score, normalized_fillers.
    pose proof (clip_mono _ _
      (inject_Z_div_le _ _ 10 ltac:(lra) Hfc)).
    lra.
  - intros Hps Hem Hfc Hpc. rewrite <- Hfc.
    rewrite <- (raw_score_compat _ _ _ _ (filler_count fs) (pause_count fs')
                  Hps Hem).
    unfold raw_score, normalized_pauses.
    pose proof (clip_mono _ _
      (inject_Z_div_le _ _ 5 ltac:(lra) Hpc)).
    lra.
  - intros Hem Hfc Hpc Hps. rewrite <- Hfc, <- Hpc.
    rewrite <- (raw_score_compat (pitch_std fs') _ _ _ (filler_count fs)
                  (pause_count fs) (Qeq_refl _) Hem).
    unfold raw_score, normalized_pitch_std.
    assert (Hd : pitch_std fs / 50 <= pitch_std fs' / 50).
    { unfold Qdiv. apply Qmult_le_compat_r; [exact Hps | discriminate]. }
    pose proof (clip_mono _ _ Hd). lra.
  - intros Hps Hfc Hpc Hem. rewrite <- Hfc, <- Hpc.
    rewrite <- (raw_score_compat _ _ (energy_mean fs') _ (filler_count fs)
                  (pause_count fs) Hps (Qeq_refl _)).
    unfold raw_score, normalized_energy.
    assert (Hd : energy_mean fs * 50 <= energy_mean fs' * 50) by lra.
    pose proof (clip_mono _ _ Hd). lra.
Qed.

Lemma confidence_score_range_monotone_witness :
  confidence_score more_fillers <= confidence_score quiet_talk /\
  confidence_score more_pauses <= confidence_score quiet_talk /\
  confidence_score more_pitch_spread <= confidence_score quiet_talk /\
  confidence_score quiet_talk <= confidence_score more_energy.
Proof.
  repeat split.
  - destruct (confidence_score_range_monotone quiet_talk more_fillers)
      as (_ & H & _).
    apply H; vm_compute; congruence.
  - destruct (confidence_score_range_monotone quiet_talk more_pauses)
      as (_ & _ & H & _).
    apply H; vm_compute; congruence.
  - destruct (confidence_score_range_monotone quiet_talk more_pitch_spread)
      as (_ & _ & _ & H & _).
    apply H; vm_compute; congruence.
  - destruct (confidence_score_range_monotone quiet_talk more_energy)
      as (_ & _ & _ & _ & H).
    apply H; vm_compute; congruence.
Defined.

(** ** The confidence level *)

Lemma confidence_level_confident (s : Q) :
  75 <= s -> confidence_level s = "Confident"%string.
Proof.
  intros H. unfold confidence_level.
  apply Qle_bool_iff in H. rewrite H. reflexivity.
Qed.

(** C3. The level is a step function of the score: a score of at least 75
    is "Confident", a score from 50 up to but excluding 75 is "Moderate",
    a score below 50 is "Needs Improvement"; 75 itself is "Confident" and
    74.999 is "Moderate". *)
Theorem confidence_level_step (s : Q) :
  (75 <= s -> confidence_level s = "Confident"%string) /\
  (50 <= s < 75 -> confidence_level s = "Moderate"%string) /\
  (s < 50 -> confidence_level s = "Needs Improvement"%string) /\
  confidence_level 75 = "Confident"%string /\
  confidence_level (74999 # 1000) = "Moderate"%string.
Proof.
  split; [apply confidence_level_confident |].
  unfold confidence_level.
  split; [| split; [| split; reflexivity]].
  - intros [H50 H75].
    destruct (Qle_bool 75 s) eqn:E75.
    + apply Qle_bool_iff in E75. lra.
    + apply Qle_bool_iff in H50. rewrite H50. reflexivity.
  - intros H.
    destruct (Qle_bool 75 s) eqn:E75.
    + apply Qle_bool_iff in E75. lra.
    + destruct (Qle_bool 50 s) eqn:E50; [| reflexivity].
      apply Qle_bool_iff in E50. lra.
Qed.

Lemma confidence_level_step_witness :
  confidence_level (80 # 1) = "Confident"%string /\
  confidence_level (125 # 2) = "Moderate"%string /\
  confidence_level (49999 # 1000) = "Needs Improvement"%string.
Proof.
  split; [| split].
  - destruct (confidence_level_step (80 # 1)) as (H & _).
    apply H. vm_compute. discriminate.
  - destruct (confidence_level_step (125 # 2)) as (_ & H & _).
    apply H. split; vm_compute; congruence.
  - destruct (confidence_level_step (49999 # 1000)) as (_ & _ & H & _).
    apply H. vm_compute. reflexivity.
Defined.

(** ** The suggestions *)

Lemma suggestions_of_shape (ps em : Q) (fc pc : Z) :
  suggestions_of ps em fc pc =
    (if Qlt_bool ps 20 then [msg_pitch] else [])
    ++ (if Qlt_bool em (2 # 100) then [msg_energy] else [])
    ++ (if (3 <=? fc)%Z then [msg_fillers] else [])
    ++ (if (3 <=? pc)%Z then [msg_pauses] else []).
Proof.
  unfold suggestions_of, append_if.
  destruct (Qlt_bool ps 20), (Qlt_bool em (2 # 100)),
    (3 <=? fc)%Z, (3 <=? pc)%Z; reflexivity.
Qed.

(** C7. The suggestion list holds exactly the messages whose test holds,
    in the order pitch_std < 20, energy_mean < 0.02, filler_count >= 3,
    pause_count >= 3; the tests are independent, so every subset of the
    four messages is the list of some summary, and the list is empty when
    no test holds. *)
Theorem suggestions_rule_table (fs : FeatureSummary) :
  suggestions fs = fired fs /\
  (forall m : string,
     In m (suggestions fs) <->
     (m = msg_pitch /\ pitch_std fs < 20) \/
     (m = msg_energy /\ energy_mean fs < 2 # 100) \/
     (m = msg_fillers /\ (3 <= filler_count fs)%Z) \/
     (m = msg_pauses /\ (3 <= pause_count fs)%Z)) /\
  (forall b1 b2 b3 b4 : bool,
     exists fs' : FeatureSummary,
       suggestions fs' =
         (if b1 then [msg_pitch] else [])
         ++ (if b2 then [msg_energy] else [])
         ++ (if b3 then [msg_fillers] else [])
         ++ (if b4 then [msg_pauses] else [])) /\
  (20 <= pitch_std fs -> 2 # 100 <= energy_mean fs ->
   (filler_count fs < 3)%Z -> (pause_count fs < 3)%Z ->
   suggestions fs = []).
Proof.
  unfold suggestions. rewrite suggestions_of_shape.
  split; [| split; [| split]].
  - unfold fired, rule_table. simpl.
    destruct (Qlt_bool (pitch_std fs) 20),
      (Qlt_bool (energy_mean fs) (2 # 100)),
      (3 <=? filler_count fs)%Z, (3 <=? pause_count fs)%Z; reflexivity.
  - intros m.
    rewrite <- !Qlt_bool_iff, <- !Z.leb_le.
    destruct (Qlt_bool (pitch_std fs) 20),
      (Qlt_bool (energy_mean fs) (2 # 100)),
      (3 <=? filler_count fs)%Z, (3 <=? pause_count fs)%Z;
      simpl; intuition (try discriminate; auto).
  - intros b1 b2 b3 b4. exists (summary_firing b1 b2 b3 b4).
    rewrite suggestions_of_shape.
    destruct b1, b2, b3, b4; reflexivity.
  - intros H1 H2 H3 H4.
    destruct (Qlt_bool (pitch_std fs) 20) eqn:E1;
      [apply Qlt_bool_iff in E1; lra |].
    destruct (Qlt_bool (energy_mean fs) (2 # 100)) eqn:E2;
      [apply Qlt_bool_iff in E2; lra |].
    destruct (3 <=? filler_count fs)%Z eqn:E3; [apply Z.leb_le in E3; lia |].
    destruct (3 <=? pause_count fs)%Z eqn:E4; [apply Z.leb_le in E4; lia |].
    reflexivity.
Qed.

Lemma suggestions_rule_table_witness : suggestions lively_talk = [].
Proof.
  destruct (suggestions_rule_table lively_talk) as (_ & _ & _ & H).
  apply H; vm_compute; congruence.
Defined.

(** ** The normaliser *)

Lemma fold_maximum_ge_init (xs : list Q) (a : Q) :
  a <= fold_left Np.maximum xs a.
Proof.
  revert a. induction xs as [| x xs IH]; intros a; simpl; [lra |].
  specialize (IH (Np.maximum a x)).
  destruct (np_maximum_spec a x) as [[H E] | [H E]]; rewrite E in *; lra.
Qed.

Lemma fold_maximum_ge (xs : list Q) (a x : Q) :
  In x xs -> x <= fold_left Np.maximum xs a.
Proof.
  revert a. induction xs as [| h xs IH]; intros a Hin; simpl in *; [tauto |].
  destruct Hin as [-> | Hin]; [| apply IH, Hin].
  pose proof (fold_maximum_ge_init xs (Np.maximum a x)) as Hinit.
  destruct (np_maximum_spec a x) as [[H E] | [H E]]; rewrite E in *; lra.
Qed.

Lemma fold_maximum_in (xs : list Q) (a : Q) :
  fold_left Np.maximum xs a = a \/ In (fold_left Np.maximum xs a) xs.
Proof.
  revert a. induction xs as [| h xs IH]; intros a; simpl; [auto |].
  destruct (IH (Np.maximum a h)) as [E | Hin]; [| auto].
  rewrite E.
  destruct (np_maximum_spec a h) as [[_ E'] | [_ E']]; rewrite E'; auto.
Qed.

Lemma np_max_spec (xs : list Q) (m : Q) :
  Np.max xs = Ok m -> In m xs /\ forall x, In x xs -> x <= m.
Proof.
  destruct xs as [| a xs]; simpl; intros H; [discriminate |].
  injection H as <-. split.
  - destruct (fold_maximum_in xs a) as [E | Hin]; [rewrite E |]; auto.
  - intros x [<- | Hin];
      [apply fold_maximum_ge_init | apply fold_maximum_ge, Hin].
Qed.

Lemma np_max_defined (xs : list Q) : xs <> [] -> exists m, Np.max xs = Ok m.
Proof.
  destruct xs as [| a xs]; [congruence | intros _; simpl; eauto].
Qed.

(** The divisor of the normaliser is positive, whatever the buffer. *)
Lemma peak_plus_epsilon_pos (y : list Q) (peak : Q) :
  Np.max (Np.abs y) = Ok peak -> 0 <= peak /\ 0 < peak + epsilon.
Proof.
  intros Hmax. apply np_max_spec in Hmax as [Hin _].
  unfold Np.abs in Hin. apply in_map_iff in Hin as (x & <- & _).
  pose proof (Qabs_nonneg x). unfold epsilon. split; lra.
Qed.

Lemma true_divide_pos (y : list Q) (d : Q) :
  0 < d -> Np.true_divide y d = Ok (map (fun x => x / d) y).
Proof.
  intros Hd. unfold Np.true_divide.
  destruct (Qeq_bool d 0) eqn:E; [| reflexivity].
  apply Qeq_bool_iff in E. lra.
Qed.

Lemma Qabs_div_pos (x d : Q) : 0 < d -> Qabs (x / d) == Qabs x / d.
Proof.
  intros Hd. unfold Qdiv. rewrite Qabs_Qmult.
  rewrite (Qabs_pos (/ d)); [reflexivity |].
  apply Qlt_le_weak, Qinv_lt_0_compat, Hd.
Qed.

Lemma div_le_one (a d : Q) : 0 < d -> a <= d -> a / d <= 1.
Proof.
  intros Hd Ha. apply Qle_shift_div_r; [exact Hd | lra].
Qed.

Lemma div_zero_iff (x d : Q) : 0 < d -> (x / d == 0 <-> x == 0).
Proof.
  intros Hd. split; intros H.
  - assert (E : x == x / d * d) by (field; lra).
    rewrite E, H. lra.
  - rewrite H. unfold Qdiv. lra.
Qed.

(** C4. The normaliser never divides by zero.  On a non-empty buffer it
    returns every sample divided by the peak absolute amplitude plus
    epsilon; the peak absolute amplitude of the output is at most 1, and
    the output is all zero if and only if the input is. *)
Theorem normalize_peak_and_silence (y : list Q) :
  normalize y <> Err DivisionByZero /\
  (y <> [] ->
   exists peak out,
     Np.max (Np.abs y) = Ok peak /\
     normalize y = Ok out /\
     out = map (fun x => x / (peak + epsilon)) y /\
     (exists m, Np.max (Np.abs out) = Ok m /\ m <= 1) /\
     (all_zero out <-> all_zero y)).
Proof.
  unfold normalize. split.
  - destruct (Np.max (Np.abs y)) as [peak | e] eqn:Hpeak; simpl.
    + destruct (peak_plus_epsilon_pos y peak Hpeak) as [_ Hd].
      rewrite (true_divide_pos y _ Hd). discriminate.
    + destruct y; simpl in Hpeak; [| discriminate].
      injection Hpeak as <-. discriminate.
  - intros Hne.
    destruct (np_max_defined (Np.abs y)) as [peak Hpeak].
    { destruct y; [congruence | discriminate]. }
    destruct (peak_plus_epsilon_pos y peak Hpeak) as [Hp0 Hd].
    exists peak, (map (fun x => x / (peak + epsilon)) y).
    rewrite Hpeak. simpl. rewrite (true_divide_pos y _ Hd).
    split; [reflexivity | split; [reflexivity | split; [reflexivity |]]].
    split.
    + destruct (np_max_defined
                  (Np.abs (map (fun x => x / (peak + epsilon)) y)))
        as [m Hm].
      { destruct y; [congruence | discriminate]. }
      exists m. split; [exact Hm |].
      apply np_max_spec in Hm as [Hin _].
      unfold Np.abs in Hin.
      apply in_map_iff in Hin as (q & <- & Hq).
      apply in_map_iff in Hq as (x & <- & Hx).
      rewrite (Qabs_div_pos x _ Hd).
      apply div_le_one; [exact Hd |].
      apply np_max_spec in Hpeak as [_ Hmax].
      assert (Qabs x <= peak) by (apply Hmax, in_map, Hx).
      unfold epsilon. lra.
    + unfold all_zero. rewrite Forall_map.
      split; intros H; eapply Forall_impl; try exact H;
        intros x Hx; cbv beta in *; apply (div_zero_iff x _ Hd); exact Hx.
Qed.

Lemma normalize_peak_and_silence_witness :
  exists peak out,
    Np.max (Np.abs loud_buffer) = Ok peak /\
    normalize loud_buffer = Ok out /\
    out = map (fun x => x / (peak + epsilon)) loud_buffer /\
    (exists m, Np.max (Np.abs out) = Ok m /\ m <= 1) /\
    (all_zero out <-> all_zero loud_buffer).
Proof.
  apply (normalize_peak_and_silence loud_buffer). discriminate.
Defined.

(** ** The pause loop *)

Lemma gaps_by_index (spans : list span) (rate : Z) :
  map (fun i => gap_between (nth (i - 1) spans (0, 0)%Z)
                            (nth i spans (0, 0)%Z) rate)
      (seq 1 (length spans - 1))
  = adjacent_gaps spans rate.
Proof.
  induction spans as [| a rest IH]; [reflexivity |].
  destruct rest as [| b rest]; [reflexivity |].
  replace (length (a :: b :: rest) - 1)%nat
    with (S (length (b :: rest) - 1)) by (simpl; lia).
  change (adjacent_gaps (a :: b :: rest) rate)
    with (gap_between a b rate :: adjacent_gaps (b :: rest) rate).
  rewrite <- IH, <- cons_seq, <- (seq_shift _ 1).
  cbn [map]. rewrite map_map. f_equal.
  apply map_ext_in.
  intros i Hi. apply in_seq in Hi.
  replace (S i - 1)%nat with (S (i - 1)) by lia.
  reflexivity.
Qed.

Lemma fold_pause_step (non_silent : list span) (rate : Z)
  (idx : list nat) (st : Q * Z) :
  fold_left (pause_step non_silent rate) idx st
  = fold_left gap_step
      (map (fun i => gap_between (nth (i - 1) non_silent (0, 0)%Z)
                                 (nth i non_silent (0, 0)%Z) rate) idx)
      st.
Proof.
  revert st. induction idx as [| i idx IH]; intros st; [reflexivity |].
  simpl. rewrite IH. reflexivity.
Qed.

Lemma detect_pauses_by_gaps (non_silent : list span) (rate : Z) :
  detect_pauses non_silent rate
  = fold_left gap_step (adjacent_gaps non_silent rate) (0, 0%Z).
Proof.
  unfold detect_pauses. rewrite fold_pause_step, gaps_by_index. reflexivity.
Qed.

Lemma fold_gap_step (gaps : list Q) (st : Q * Z) :
  snd (fold_left gap_step gaps st)
    = (snd st + Z.of_nat (length (filter is_pause gaps)))%Z /\
  fst (fold_left gap_step gaps st)
    == fst st + total (filter is_pause gaps).
Proof.
  revert st. induction gaps as [| g gaps IH]; intros st.
  - simpl. split; [lia | lra].
  - cbn [fold_left filter]. destruct (IH (gap_step st g)) as [Hc Ht].
    rewrite Hc, Ht. unfold gap_step.
    destruct (is_pause g); cbn [fst snd length total]; split; try lia; lra.
Qed.

Lemma detect_pauses_spec (non_silent : list span) (rate : Z) :
  snd (detect_pauses non_silent rate)
    = Z.of_nat (length (pauses non_silent rate)) /\
  fst (detect_pauses non_silent rate) == total (pauses non_silent rate).
Proof.
  rewrite detect_pauses_by_gaps. unfold pauses.
  destruct (fold_gap_step (adjacent_gaps non_silent rate) (0, 0%Z))
    as [Hc Ht].
  rewrite Hc, Ht. cbn [fst snd]. split; [lia | lra].
Qed.

Lemma is_pause_iff (gap : Q) : is_pause gap = true <-> 25 # 100 < gap.
Proof. unfold is_pause, min_pause. apply Qlt_bool_iff. Qed.

Lemma total_of_pauses (gaps : list Q) :
  Forall (fun g => 25 # 100 < g) gaps ->
  (25 # 100) * inject_Z (Z.of_nat (length gaps)) <= total gaps /\
  (gaps <> [] -> (25 # 100) * inject_Z (Z.of_nat (length gaps)) < total gaps).
Proof.
  induction 1 as [| g gaps Hg _ [IHle _]].
  - split; [discriminate | congruence].
  - cbn [length total].
    rewrite Nat2Z.inj_succ, <- Z.add_1_r, inject_Z_plus.
    change (inject_Z 1) with 1.
    split; [| intros _]; lra.
Qed.

(** C5. For every list of voiced spans (at a positive sample rate) the
    loop counts exactly the gaps between adjacent spans that are strictly
    longer than 0.25 s, the gap being the start of the next span minus
    the end of the previous one, divided by the rate, and adds up exactly
    their durations; with no span or a single span the count and the
    total silence are 0. *)
Theorem detect_pauses_counts_long_gaps (spans : list span) (rate : Z) :
  (0 < rate)%Z ->
  snd (detect_pauses spans rate) = Z.of_nat (length (pauses spans rate)) /\
  fst (detect_pauses spans rate) == total (pauses spans rate) /\
  (forall gap : Q,
     In gap (pauses spans rate) <->
     In gap (adjacent_gaps spans rate) /\ 25 # 100 < gap) /\
  ((length spans <= 1)%nat -> detect_pauses spans rate = (0, 0%Z)).
Proof.
  intros _.
  destruct (detect_pauses_spec spans rate) as [Hc Ht].
  split; [exact Hc | split; [exact Ht | split]].
  - intros gap. unfold pauses. rewrite filter_In, is_pause_iff. reflexivity.
  - intros Hlen. destruct spans as [| a [| b rest]]; simpl in Hlen;
      [reflexivity | reflexivity | lia].
Qed.

Lemma detect_pauses_counts_long_gaps_witness :
  snd (detect_pauses three_bursts 22050) = 2%Z /\
  fst (detect_pauses three_bursts 22050) == 3 # 2.
Proof.
  destruct (detect_pauses_counts_long_gaps three_bursts 22050)
    as (Hc & Ht & _); [reflexivity |].
  split; [rewrite Hc | rewrite Ht]; reflexivity.
Defined.

(** C10. After the pause loop the count and the total silence are
    linked: the total is 0 when the count is 0, and it strictly exceeds
    0.25 times the count when the count is positive. *)
Theorem pause_count_bounds_silence (non_silent : list span) (rate : Z) :
  (0 < rate)%Z ->
  let total_silence_duration := fst (detect_pauses non_silent rate) in
  let pause_count := snd (detect_pauses non_silent rate) in
  (0 <= pause_count)%Z /\
  (pause_count = 0%Z -> total_silence_duration == 0) /\
  ((0 < pause_count)%Z ->
   (25 # 100) * inject_Z pause_count < total_silence_duration).
Proof.
  intros _. cbv zeta.
  destruct (detect_pauses_spec non_silent rate) as [Hc Ht].
  rewrite Hc, Ht.
  assert (Hall : Forall (fun g => 25 # 100 < g) (pauses non_silent rate)).
  { apply Forall_forall. intros g Hg. unfold pauses in Hg.
    apply filter_In in Hg as [_ Hg]. apply is_pause_iff, Hg. }
  destruct (total_of_pauses _ Hall) as [_ Hlt].
  split; [lia | split].
  - intros H0. destruct (pauses non_silent rate); [reflexivity |].
    simpl in H0. lia.
  - intros Hpos. apply Hlt. intros E. rewrite E in Hpos. simpl in Hpos. lia.
Qed.

Lemma pause_count_bounds_silence_witness :
  (25 # 100) * inject_Z (snd (detect_pauses three_bursts 22050))
  < fst (detect_pauses three_bursts 22050).
Proof.
  destruct (pause_count_bounds_silence three_bursts 22050) as (_ & _ & H);
    [reflexivity |].
  apply H. reflexivity.
Defined.

(** ** The pitch smoothing *)

Lemma reflect_below (n : nat) (idx : Z) :
  (- Z.of_nat n <= idx < 0)%Z -> reflect n idx = Z.to_nat (- idx - 1).
Proof.
  intros H. unfold reflect. cbv zeta.
  assert (E : (idx mod (2 * Z.of_nat n) = idx + 2 * Z.of_nat n)%Z).
  { symmetry. apply (Z.mod_unique _ _ (-1)); lia. }
  rewrite E.
  destruct (idx + 2 * Z.of_nat n <? Z.of_nat n)%Z eqn:C;
    [apply Z.ltb_lt in C; lia | f_equal; lia].
Qed.

Lemma reflect_inside (n : nat) (idx : Z) :
  (0 <= idx < Z.of_nat n)%Z -> reflect n idx = Z.to_nat idx.
Proof.
  intros H. unfold reflect. cbv zeta.
  rewrite Z.mod_small by lia.
  destruct (idx <? Z.of_nat n)%Z eqn:C;
    [reflexivity | apply Z.ltb_ge in C; lia].
Qed.

Lemma reflect_above (n : nat) (idx : Z) :
  (Z.of_nat n <= idx < 2 * Z.of_nat n)%Z ->
  reflect n idx = Z.to_nat (2 * Z.of_nat n - 1 - idx).
Proof.
  intros H. unfold reflect. cbv zeta.
  rewrite Z.mod_small by lia.
  destruct (idx <? Z.of_nat n)%Z eqn:C;
    [apply Z.ltb_lt in C; lia | reflexivity].
Qed.

(** Rewrites every mirrored position of the goal to its value. *)
Ltac settle_reflect :=
  repeat match goal with
  | |- context [reflect ?n ?idx] =>
      first [ rewrite (reflect_inside n idx) by lia
            | rewrite (reflect_below n idx) by lia
            | rewrite (reflect_above n idx) by lia ]
  end.

(** Inside the range a mirrored position stays within two samples of the
    end it was mirrored about. *)
Lemma reflect_in_available (n i k : nat) :
  (5 < n)%nat -> (i < n)%nat -> (k < 5)%nat ->
  let r := reflect n (Z.of_nat i + Z.of_nat k - Z.of_nat (5 / 2)) in
  (i - 2 <= r < i - 2 + (Nat.min n (i + 3) - (i - 2)))%nat.
Proof.
  intros Hn Hi Hk. cbv zeta.
  change (Z.of_nat (5 / 2)) with 2%Z.
  destruct (Z_lt_le_dec (Z.of_nat i + Z.of_nat k - 2) 0) as [Hneg | Hpos].
  - rewrite reflect_below by lia. lia.
  - destruct (Z_lt_le_dec (Z.of_nat i + Z.of_nat k - 2) (Z.of_nat n))
      as [Hin | Hout].
    + rewrite reflect_inside by lia. lia.
    + rewrite reflect_above by lia. lia.
Qed.

Lemma firstn_as_map (m : nat) (xs : list Q) :
  (m <= length xs)%nat ->
  firstn m xs = map (fun j => nth j xs 0) (seq 0 m).
Proof.
  revert xs. induction m as [| m IH]; intros xs Hm; [reflexivity |].
  destruct xs as [| a xs]; simpl in Hm; [lia |].
  rewrite <- cons_seq, <- seq_shift. cbn [firstn map]. rewrite map_map.
  f_equal. apply IH. lia.
Qed.

Lemma firstn_skipn_as_map (k m : nat) (xs : list Q) :
  (k + m <= length xs)%nat ->
  firstn m (skipn k xs) = map (fun j => nth j xs 0) (seq k m).
Proof.
  revert xs. induction k as [| k IH]; intros xs Hk.
  - apply firstn_as_map. lia.
  - destruct xs as [| a xs]; simpl in Hk; [lia |].
    rewrite <- seq_shift, map_map. cbn [skipn]. apply IH. lia.
Qed.

Lemma available_window_as_map (xs : list Q) (i : nat) :
  (i < length xs)%nat ->
  available_window xs i
  = map (fun j => nth j xs 0)
        (seq (i - 2) (Nat.min (length xs) (i + 3) - (i - 2))).
Proof.
  intros Hi. unfold available_window. apply firstn_skipn_as_map. lia.
Qed.

Lemma median_filter_length (xs : list Q) (size : nat) :
  length (median_filter xs size) = length xs.
Proof. unfold median_filter. rewrite length_map, length_seq. reflexivity. Qed.

Lemma median_filter_nth (xs : list Q) (size i : nat) :
  (i < length xs)%nat ->
  nth i (median_filter xs size) 0 = rank_median (window xs size i).
Proof.
  intros Hi. unfold median_filter.
  rewrite (nth_indep _ 0 (rank_median (window xs size 0)))
    by (rewrite length_map, length_seq; exact Hi).
  rewrite (map_nth (fun i => rank_median (window xs size i))).
  rewrite seq_nth by exact Hi. reflexivity.
Qed.

(** C8, as the code has it.  With 5 or fewer entries the series is left
    as it is.  With more than 5 entries every entry becomes the median of
    a window of exactly five samples centred on it; a window that
    reaches over an end of the series is completed by mirroring the
    series about that end, the end sample included, so that its samples
    all come from the part of the series the window covers, some of them
    twice. *)
Theorem smooth_mirrors_at_the_ends (xs : list Q) :
  ((length xs <= 5)%nat -> smooth xs = xs) /\
  ((5 < length xs)%nat ->
   let n := length xs in
   let x := fun j => nth j xs 0 in
   length (smooth xs) = n /\
   (forall i, (i < n)%nat ->
      nth i (smooth xs) 0 = nth 2 (sort (window xs 5 i)) 0 /\
      length (window xs 5 i) = 5%nat /\
      incl (window xs 5 i) (available_window xs i)) /\
   (forall i, (2 <= i < n - 2)%nat ->
      window xs 5 i = available_window xs i) /\
   window xs 5 0 = [x 1; x 0; x 0; x 1; x 2]%nat /\
   window xs 5 1 = [x 0; x 0; x 1; x 2; x 3]%nat /\
   window xs 5 (n - 2)
     = [x (n - 4); x (n - 3); x (n - 2); x (n - 1); x (n - 1)]%nat /\
   window xs 5 (n - 1)
     = [x (n - 3); x (n - 2); x (n - 1); x (n - 1); x (n - 2)]%nat).
Proof.
  unfold smooth. split.
  - intros Hle. destruct (5 <? length xs)%nat eqn:C; [| reflexivity].
    apply Nat.ltb_lt in C. lia.
  - intros Hlt. cbv zeta.
    destruct (5 <? length xs)%nat eqn:C;
      [clear C | apply Nat.ltb_ge in C; lia].
    split; [apply median_filter_length |].
    split; [| split; [| repeat split]].
    + intros i Hi. split; [| split].
      * rewrite median_filter_nth by exact Hi. unfold rank_median.
        unfold window. rewrite length_map, length_seq. reflexivity.
      * unfold window. rewrite length_map, length_seq. reflexivity.
      * intros v Hv. unfold window in Hv.
        apply in_map_iff in Hv as (k & <- & Hk). apply in_seq in Hk.
        rewrite available_window_as_map by exact Hi.
        apply (in_map (fun j => nth j xs 0)), in_seq.
        apply reflect_in_available; lia.
    + intros i Hi. rewrite available_window_as_map by lia.
      replace (Nat.min (length xs) (i + 3) - (i - 2))%nat with 5%nat by lia.
      unfold window. cbn [seq map].
      change (Z.of_nat (5 / 2)) with 2%Z.
      settle_reflect. repeat f_equal; lia.
    + unfold window. cbn [seq map]. change (Z.of_nat (5 / 2)) with 2%Z.
      settle_reflect. reflexivity.
    + unfold window. cbn [seq map]. change (Z.of_nat (5 / 2)) with 2%Z.
      settle_reflect. reflexivity.
    + unfold window. cbn [seq map]. change (Z.of_nat (5 / 2)) with 2%Z.
      settle_reflect. repeat f_equal; lia.
    + unfold window. cbn [seq map]. change (Z.of_nat (5 / 2)) with 2%Z.
      settle_reflect. repeat f_equal; lia.
Qed.

Lemma smooth_mirrors_at_the_ends_witness :
  smooth [7; 3] = [7; 3] /\
  window rising_series 5 1 = [0; 0; 1; 2; 3] /\
  window rising_series 5 4 = [2; 3; 4; 5; 5] /\
  nth 1 (smooth rising_series) 0 = 1 /\
  nth 4 (smooth rising_series) 0 = 4.
Proof.
  split.
  - apply (smooth_mirrors_at_the_ends [7; 3]). simpl. lia.
  - destruct (smooth_mirrors_at_the_ends rising_series) as [_ H].
    destruct H as (_ & Hnth & _ & _ & H1 & H4 & _); [simpl; lia |].
    split; [exact H1 | split; [exact H4 |]].
    split.
    + destruct (Hnth 1%nat) as [E _]; [simpl; lia |].
      rewrite E. reflexivity.
    + destruct (Hnth 4%nat) as [E _]; [simpl; lia |].
      rewrite E. reflexivity.
Defined.

(** C8, as the claim words it, fails: no median of the available
    sub-window gives the output of the code.  On [rising_series] and on
    [shuffled_series] the window centred on position 1 covers the same
    four samples 0, 1, 2, 3 of the series, yet the code returns 1 on the
    first and 2 on the second. *)
Lemma smooth_not_median_of_available_window :
  ~ exists med : list Q -> Q, median_of_available_window med.
Proof.
  intros [med H].
  pose proof (H rising_series 1%nat) as H1.
  pose proof (H shuffled_series 1%nat) as H2.
  assert (L : (5 < 6)%nat) by lia.
  assert (I : (1 < 6)%nat) by lia.
  specialize (H1 L I). specialize (H2 L I).
  vm_compute in H1, H2.
  rewrite <- H1 in H2. discriminate H2.
Qed.

(** ** A silent buffer *)

Lemma normalize_defined (y : list Q) :
  y <> [] ->
  exists peak,
    Np.max (Np.abs y) = Ok peak /\ 0 < peak + epsilon /\
    normalize y = Ok (map (fun x => x / (peak + epsilon)) y).
Proof.
  intros Hne.
  destruct (np_max_defined (Np.abs y)) as [peak Hpeak].
  { destruct y; [congruence | discriminate]. }
  destruct (peak_plus_epsilon_pos y peak Hpeak) as [_ Hd].
  exists peak. split; [exact Hpeak | split; [exact Hd |]].
  unfold normalize. rewrite Hpeak. simpl. apply true_divide_pos, Hd.
Qed.

Lemma normalize_silent (y : list Q) :
  y <> [] -> all_zero y ->
  exists out, normalize y = Ok out /\ out <> [] /\ all_zero out.
Proof.
  intros Hne Hz.
  destruct (normalize_defined y Hne) as (peak & _ & Hd & Hn).
  eexists. split; [exact Hn | split].
  - destruct y; [congruence | discriminate].
  - unfold all_zero in *. rewrite Forall_map.
    eapply Forall_impl; [| exact Hz].
    intros x Hx. cbv beta. apply (div_zero_iff x _ Hd), Hx.
Qed.

Lemma nth_all_zero (xs : list Q) (i : nat) : all_zero xs -> nth i xs 0 == 0.
Proof.
  intros Hz. destruct (nth_in_or_default i xs 0) as [Hin | ->];
    [| reflexivity].
  unfold all_zero in Hz. rewrite Forall_forall in Hz. apply Hz, Hin.
Qed.

Lemma entry_all_zero (m : matrix) (i t : nat) :
  Forall all_zero m -> entry m i t == 0.
Proof.
  intros Hz. unfold entry. apply nth_all_zero.
  destruct (nth_in_or_default i m []) as [Hin | ->]; [| constructor].
  rewrite Forall_forall in Hz. apply Hz, Hin.
Qed.

(** Without a pitch above 50 Hz the loop over the frames keeps nothing. *)
Lemma collect_pitches_silent (pitches magnitudes : matrix)
  (ts : list nat) (kept : list Q) :
  Forall all_zero pitches -> (ts = [] \/ magnitudes <> []) ->
  collect_pitches pitches magnitudes ts kept = Ok kept.
Proof.
  intros Hz Hm. revert kept.
  induction ts as [| t ts IH]; intros kept; [reflexivity |].
  destruct Hm as [Hm | Hm]; [discriminate |].
  cbn [collect_pitches].
  destruct magnitudes as [| row rows]; [congruence |].
  cbn [column map Np.argmax bind].
  assert (E : Qlt_bool 50 (entry pitches
                (Np.argmax_from (nth t row 0) 0 1
                   (map (fun r => nth t r 0) rows)) t) = false).
  { destruct (Qlt_bool 50 _) eqn:C; [| reflexivity].
    apply Qlt_bool_iff in C.
    rewrite (entry_all_zero pitches _ t Hz) in C. lra. }
  rewrite E. apply IH. right. discriminate.
Qed.

Lemma sum_from (xs : list Q) (a : Q) :
  all_zero xs -> fold_left Qplus xs a == a.
Proof.
  intros Hz. revert a.
  induction Hz as [| x xs Hx _ IH]; intros a; simpl; [reflexivity |].
  rewrite IH, Hx. lra.
Qed.

Lemma mean_silent (xs : list Q) :
  xs <> [] -> all_zero xs -> exists m, Np.mean xs = Ok m /\ m == 0.
Proof.
  intros Hne Hz. destruct xs as [| x xs]; [congruence |].
  eexists. split; [reflexivity |].
  unfold Np.sum. rewrite (sum_from _ 0 Hz). unfold Qdiv. lra.
Qed.

Lemma std_silent (sqrt : Q -> Q) (xs : list Q) :
  (forall v, v == 0 -> sqrt v == 0) ->
  xs <> [] -> all_zero xs -> exists s, Np.std sqrt xs = Ok s /\ s == 0.
Proof.
  intros Hsqrt Hne Hz.
  destruct (mean_silent xs Hne Hz) as (m & Hm & Hm0).
  destruct (mean_silent (map (fun x => (x - m) * (x - m)) xs))
    as (v & Hv & Hv0).
  - destruct xs; [congruence | discriminate].
  - unfold all_zero in *. rewrite Forall_map.
    eapply Forall_impl; [| exact Hz].
    intros x Hx. cbv beta. rewrite Hx, Hm0. lra.
  - exists (sqrt v). unfold Np.std. rewrite Hm. cbn [bind].
    rewrite Hv. cbn [bind]. split; [reflexivity | apply Hsqrt, Hv0].
Qed.

Lemma detect_pauses_short (non_silent : list span) (rate : Z) :
  (length non_silent <= 1)%nat -> detect_pauses non_silent rate = (0, 0%Z).
Proof.
  intros Hlen. destruct non_silent as [| a [| b rest]]; simpl in Hlen;
    [reflexivity | reflexivity | lia].
Qed.

Lemma dot_zero_l (a v : list Q) : all_zero a -> Np.dot a v == 0.
Proof.
  intros Hz. revert v.
  induction Hz as [| x a Hx _ IH]; intros v; [reflexivity |].
  destruct v as [| w v]; [reflexivity |].
  cbn [Np.dot]. rewrite IH, Hx. lra.
Qed.

Lemma dot_zero_r (a v : list Q) : all_zero v -> Np.dot a v == 0.
Proof.
  intros Hz. revert a.
  induction Hz as [| w v Hw _ IH]; intros a;
    [destruct a; reflexivity |].
  destruct a as [| x a]; [reflexivity |].
  cbn [Np.dot]. rewrite IH, Hw. lra.
Qed.

Lemma all_zero_skipn (k : nat) (xs : list Q) :
  all_zero xs -> all_zero (skipn k xs).
Proof.
  intros Hz. revert k.
  induction Hz as [| x xs Hx Hxs IH]; intros [| k]; simpl;
    try (constructor; fail).
  - constructor; assumption.
  - apply IH.
Qed.

Lemma all_zero_firstn (m : nat) (xs : list Q) :
  all_zero xs -> all_zero (firstn m xs).
Proof.
  intros Hz. revert m.
  induction Hz as [| x xs Hx Hxs IH]; intros [| m]; simpl;
    try (constructor; fail).
  constructor; [exact Hx | apply IH].
Qed.

Lemma convolve_valid_defined (a v : list Q) :
  a <> [] -> v <> [] ->
  Np.convolve_valid a v =
    let (long, short) :=
      if (length a <? length v)%nat then (v, a) else (a, v) in
    Ok (map (fun k => Np.dot (firstn (length short) (skipn k long))
                             (rev short))
            (seq 0 (length long - length short + 1))).
Proof.
  intros Ha Hv. destruct a; [congruence |]. destruct v; [congruence |].
  reflexivity.
Qed.

(** The moving average of a silent buffer is silent. *)
Lemma convolve_valid_silent (a v : list Q) :
  a <> [] -> v <> [] -> all_zero a ->
  exists out, Np.convolve_valid a v = Ok out /\ all_zero out.
Proof.
  intros Ha Hv Hz. rewrite (convolve_valid_defined a v Ha Hv).
  destruct (length a <? length v)%nat; eexists; (split; [reflexivity |]);
    unfold all_zero; rewrite Forall_map; apply Forall_forall; intros k _.
  - apply dot_zero_r, Forall_rev, Hz.
  - apply dot_zero_l, all_zero_firstn, all_zero_skipn, Hz.
Qed.

Lemma all_zero_abs (y : list Q) : all_zero y -> all_zero (Np.abs y).
Proof.
  intros Hz. unfold all_zero, Np.abs in *. rewrite Forall_map.
  eapply Forall_impl; [| exact Hz].
  intros x Hx. cbv beta. rewrite Hx. reflexivity.
Qed.

Lemma score_of_silent (ps em : Q) :
  ps == 0 -> em == 0 -> score_of ps em 0 0 == 75.
Proof.
  intros Hps Hem. rewrite score_of_raw.
  rewrite (raw_score_compat ps 0 em 0 0 0 Hps Hem). reflexivity.
Qed.

(** The library routines are only known through their behaviour on a
    silent signal. *)
Section SilentBuffer.

Variable L : AudioLib.
Hypothesis laws : SilenceLaws L.

(** No peak of the required height is found in a silent envelope. *)
Lemma find_peaks_silent (x : list Q) (height : Q) (distance : nat) :
  0 < height -> all_zero x -> find_peaks x height distance = [].
Proof.
  intros Hh Hz.
  destruct (find_peaks x height distance) as [| p ps] eqn:E; [reflexivity |].
  destruct (find_peaks_height L laws x height distance p)
    as (v & Hv & Hle).
  { rewrite E. left. reflexivity. }
  apply nth_error_In in Hv.
  unfold all_zero in Hz. rewrite Forall_forall in Hz.
  specialize (Hz v Hv). cbv beta in Hz. lra.
Qed.

(** C6. With library routines that behave on silence as [SilenceLaws]
    states, the analysis of a non-empty all-zero buffer at rate 22050
    returns, with pitch mean and deviation 0, energy mean and deviation
    0, no pause, no filler, a score of 75 and the level "Confident". *)
Theorem silent_buffer_is_confident (y : list Q) :
  y <> [] -> all_zero y ->
  exists r : AnalysisResult,
    analyze_voice y 22050 = Ok r /\
    pitch_mean (features r) == 0 /\
    pitch_std (features r) == 0 /\
    energy_mean (features r) == 0 /\
    energy_std (features r) == 0 /\
    pause_count (features r) = 0%Z /\
    filler_count (features r) = 0%Z /\
    score r == 75 /\
    level r = "Confident"%string.
Proof.
  intros Hne Hz. unfold analyze_voice.
  destruct (normalize_silent y Hne Hz) as (yn & -> & Hnne & Hnz).
  cbn [bind].
  pose proof (piptrack_silent L laws yn 22050 80 600 Hnz) as Hpz.
  destruct (piptrack yn 22050 80 600) as [pitches magnitudes].
  cbn [fst] in Hpz.
  rewrite (collect_pitches_silent pitches magnitudes _ [] Hpz).
  2:{ destruct magnitudes as [| row rows]; [left; reflexivity |].
      right; discriminate. }
  cbn [bind smooth length Nat.ltb Nat.leb].
  destruct (rms_silent L laws yn Hnne Hnz) as [Hene Hez].
  destruct (mean_silent (rms yn) Hene Hez) as (em & -> & Hem).
  destruct (std_silent sqrt (rms yn) (sqrt_zero L laws) Hene Hez)
    as (es & -> & Hes).
  cbn [bind].
  rewrite (detect_pauses_short (effects_split yn 30) 22050
             (split_silent L laws yn 30 Hnz)).
  destruct (convolve_valid_silent (Np.abs yn) (Np.ones_over 1000 1000))
    as (smoothed & -> & Hsz).
  { destruct yn; [congruence | discriminate]. }
  { discriminate. }
  { apply all_zero_abs, Hnz. }
  cbn [bind].
  rewrite (find_peaks_silent smoothed (1 # 100) 1000
             ltac:(reflexivity) Hsz).
  change (filler_count_of []) with 0%Z.
  eexists. split; [reflexivity |].
  cbn [features score level pitch_mean pitch_std energy_mean energy_std
       pause_count filler_count].
  pose proof (score_of_silent 0 em (Qeq_refl 0) Hem) as Hscore.
  repeat (split; [first [reflexivity | assumption] |]).
  apply confidence_level_confident. rewrite Hscore. lra.
Qed.

End SilentBuffer.

(** The stand-in library behaves on silence as the laws require. *)
Lemma toy_lib_laws : SilenceLaws toy_lib.
Proof.
  constructor; cbn [piptrack rms effects_split find_peaks sqrt toy_lib].
  - intros y _ _ _ _. cbn [fst]. constructor; [| constructor].
    unfold all_zero. rewrite Forall_map. apply Forall_forall.
    intros x _. reflexivity.
  - intros y Hne Hz. split.
    + destruct y; [congruence | discriminate].
    + apply (all_zero_abs y Hz).
  - intros y _ _. simpl. lia.
  - intros x height distance p Hp. unfold positions_reaching in Hp.
    apply filter_In in Hp as [Hp Hle]. apply in_seq in Hp.
    exists (nth p x 0). split.
    + apply nth_error_nth'. lia.
    + apply Qle_bool_iff, Hle.
  - intros v Hv. exact Hv.
Qed.

Lemma silent_buffer_is_confident_witness :
  exists r : AnalysisResult,
    analyze_voice (L := toy_lib) silence 22050 = Ok r /\
    score r == 75 /\
    level r = "Confident"%string.
Proof.
  destruct (silent_buffer_is_confident toy_lib toy_lib_laws silence)
    as (r & Hr & _ & _ & _ & _ & _ & _ & Hscore & Hlevel).
  - discriminate.
  - repeat constructor.
  - exists r. split; [exact Hr | split; [exact Hscore | exact Hlevel]].
Defined.

(** ** The filler estimate *)

Lemma bind_ok {A B : Type} (r : result A) (k : A -> result B) (b : B) :
  bind r k = Ok b -> exists a, r = Ok a /\ k a = Ok b.
Proof. destruct r as [a | e]; simpl; intros H; [eauto | discriminate]. Qed.

Lemma msg_fillers_fires (ps em : Q) (fc pc : Z) :
  In msg_fillers (suggestions_of ps em fc pc) <-> (3 <= fc)%Z.
Proof.
  rewrite suggestions_of_shape, <- Z.leb_le.
  destruct (Qlt_bool ps 20), (Qlt_bool em (2 # 100)),
    (3 <=? fc)%Z, (3 <=? pc)%Z; simpl;
    intuition (try discriminate; auto).
Qed.

Lemma filler_count_of_floor (peaks : list nat) :
  let n := Z.of_nat (length peaks) in
  (30 * filler_count_of peaks <= n < 30 * filler_count_of peaks + 30)%Z.
Proof.
  cbv zeta. unfold filler_count_of.
  pose proof (Z.mul_div_le (Z.of_nat (length peaks)) 30 ltac:(lia)).
  pose proof (Z.mul_succ_div_gt (Z.of_nat (length peaks)) 30 ltac:(lia)).
  lia.
Qed.

Lemma convolve_valid_ok (a v : list Q) :
  a <> [] -> v <> [] -> exists out, Np.convolve_valid a v = Ok out.
Proof.
  intros Ha Hv. rewrite (convolve_valid_defined a v Ha Hv).
  destruct (length a <? length v)%nat; eexists; reflexivity.
Qed.

(** C9. On every non-empty buffer the envelope (the moving average of
    the normalised buffer) is defined, and whenever the analysis returns,
    its filler count is the number of envelope peaks integer-divided by
    30 (the largest k with 30 k at most the number of peaks); it is 0
    when fewer than 30 peaks were found, and the filler suggestion is
    given only when at least 90 peaks were found. *)
Theorem filler_count_is_peaks_div_30 (L : AudioLib) (y : list Q) (rate : Z) :
  (y <> [] ->
   exists normalized smoothed : list Q,
     normalize y = Ok normalized /\
     Np.convolve_valid (Np.abs normalized) (Np.ones_over 1000 1000)
       = Ok smoothed) /\
  (forall r : AnalysisResult,
     analyze_voice y rate = Ok r ->
     exists normalized smoothed : list Q,
       normalize y = Ok normalized /\
       Np.convolve_valid (Np.abs normalized) (Np.ones_over 1000 1000)
         = Ok smoothed /\
       let peaks := find_peaks smoothed (1 # 100) 1000 in
       let n := Z.of_nat (length peaks) in
       filler_count (features r) = (n / 30)%Z /\
       (30 * filler_count (features r) <= n
          < 30 * filler_count (features r) + 30)%Z /\
       ((n < 30)%Z -> filler_count (features r) = 0%Z) /\
       ((3 <= filler_count (features r))%Z <-> (90 <= n)%Z) /\
       (In msg_fillers (advice r) -> (90 <= n)%Z)).
Proof.
  split.
  - intros Hne.
    destruct (normalize_defined y Hne) as (peak & _ & _ & Hnorm).
    destruct (convolve_valid_ok
                (Np.abs (map (fun x => x / (peak + epsilon)) y))
                (Np.ones_over 1000 1000)) as [smoothed Hconv].
    { destruct y; [congruence | discriminate]. }
    { discriminate. }
    eauto.
  - unfold analyze_voice. intros r H.
    apply bind_ok in H as (normalized & Hnorm & H).
    destruct (piptrack normalized rate 80 600) as [pitches magnitudes].
    apply bind_ok in H as (pitch_values & _ & H).
    apply bind_ok in H as (ps & _ & H).
    apply bind_ok in H as (pm & _ & H).
    apply bind_ok in H as (em & _ & H).
    apply bind_ok in H as (es & _ & H).
    destruct (detect_pauses (effects_split normalized 30) rate) as [ts pc].
    apply bind_ok in H as (smoothed & Hconv & H).
    injection H as <-.
    exists normalized, smoothed.
    split; [exact Hnorm | split; [exact Hconv |]].
    cbv zeta. cbn [features filler_count advice].
    pose proof (filler_count_of_floor (find_peaks smoothed (1 # 100) 1000))
      as Hfloor.
    cbv zeta in Hfloor.
    split; [reflexivity | split; [exact Hfloor |]].
    split; [intros; lia | split; [lia |]].
    intros Hin. apply msg_fillers_fires in Hin. lia.
Qed.

Lemma filler_count_is_peaks_div_30_witness :
  exists (r : AnalysisResult) (normalized smoothed : list Q),
    analyze_voice (L := toy_lib) steady_tone 22050 = Ok r /\
    normalize steady_tone = Ok normalized /\
    Np.convolve_valid (Np.abs normalized) (Np.ones_over 1000 1000)
      = Ok smoothed /\
    filler_count (features r)
      = (Z.of_nat (length (find_peaks (AudioLib := toy_lib)
                             smoothed (1 # 100) 1000)) / 30)%Z.
Proof.
  assert (E : exists r, analyze_voice (L := toy_lib) steady_tone 22050 = Ok r).
  { vm_compute. eexists. reflexivity. }
  destruct E as [r E].
  destruct (filler_count_is_peaks_div_30 toy_lib steady_tone 22050)
    as [_ H].
  destruct (H r E) as (normalized & smoothed & Hn & Hc & Hfc & _).
  exists r, normalized, smoothed. auto.
Defined.

(** * Further properties of the code *)

(** ** How score, level and suggestions fit together *)

Lemma div_as_mult (x : Q) (d : positive) :
  x / inject_Z (Z.pos d) = x * (1 # d).
Proof. reflexivity. Qed.

Lemma inject_Z_le (a b : Z) : (a <= b)%Z <-> inject_Z a <= inject_Z b.
Proof. rewrite Zle_Qle. reflexivity. Qed.

(** Splits the four clipped terms of [raw_score] into their three cases
    each and hands the linear facts to [lra]. *)
Ltac split_clips ps em fc pc :=
  unfold raw_score, normalized_pitch_std, normalized_energy,
    normalized_fillers, normalized_pauses in *;
  change (ps / 50) with (ps * (1 # 50)) in *;
  change (inject_Z fc / 10) with (inject_Z fc * (1 # 10)) in *;
  change (inject_Z pc / 5) with (inject_Z pc * (1 # 5)) in *;
  destruct (clip_cases (ps * (1 # 50))) as [[? E1] | [[? E1] | [? E1]]];
  destruct (clip_cases (em * 50)) as [[? E2] | [[? E2] | [? E2]]];
  destruct (clip_cases (inject_Z fc * (1 # 10)))
    as [[? E3] | [[? E3] | [? E3]]];
  destruct (clip_cases (inject_Z pc * (1 # 5)))
    as [[? E4] | [[? E4] | [? E4]]];
  rewrite E1, E2, E3, E4 in *; clear E1 E2 E3 E4.

Lemma suggestions_of_nil (ps em : Q) (fc pc : Z) :
  suggestions_of ps em fc pc = [] <->
  20 <= ps /\ 2 # 100 <= em /\ (fc < 3)%Z /\ (pc < 3)%Z.
Proof.
  rewrite suggestions_of_shape.
  destruct (Qlt_bool ps 20) eqn:E1.
  { split; [discriminate | intros (H & _); apply Qlt_bool_iff in E1; lra]. }
  destruct (Qlt_bool em (2 # 100)) eqn:E2.
  { split; [discriminate |
            intros (_ & H & _); apply Qlt_bool_iff in E2; lra]. }
  destruct (3 <=? fc)%Z eqn:E3.
  { split; [discriminate | intros (_ & _ & H & _); apply Z.leb_le in E3; lia]. }
  destruct (3 <=? pc)%Z eqn:E4.
  { split; [discriminate | intros (_ & _ & _ & H); apply Z.leb_le in E4; lia]. }
  split; [intros _ | reflexivity].
  apply Z.leb_gt in E3, E4.
  assert (N1 : ~ ps < 20) by (rewrite <- Qlt_bool_iff; congruence).
  assert (N2 : ~ em < 2 # 100) by (rewrite <- Qlt_bool_iff; congruence).
  repeat split; try lia; apply Qnot_lt_le; assumption.
Qed.

(** X1. When no suggestion is given the score lies between 64 and 92, so
    the level is never "Needs Improvement"; both ends are reached, and at
    64 the level is only "Moderate". *)
Theorem no_advice_score_band (fs : FeatureSummary) :
  (suggestions fs = [] ->
   64 <= confidence_score fs <= 92 /\
   confidence_level (confidence_score fs) <> "Needs Improvement"%string) /\
  (exists lo : FeatureSummary,
     suggestions lo = [] /\ confidence_score lo == 64 /\
     confidence_level (confidence_score lo) = "Moderate"%string) /\
  (exists hi : FeatureSummary,
     suggestions hi = [] /\ confidence_score hi == 92).
Proof.
  split; [| split].
  - unfold suggestions, confidence_score. intros Hnil.
    apply suggestions_of_nil in Hnil as (Hps & Hem & Hfc & Hpc).
    rewrite score_of_raw.
    assert (Hfc' : inject_Z (filler_count fs) <= inject_Z 2)
      by (apply (proj1 (inject_Z_le _ _)); lia).
    assert (Hpc' : inject_Z (pause_count fs) <= inject_Z 2)
      by (apply (proj1 (inject_Z_le _ _)); lia).
    change (inject_Z 2) with 2 in Hfc', Hpc'.
    assert (Hband : 64 <= raw_score (pitch_std fs) (energy_mean fs)
                            (filler_count fs) (pause_count fs) <= 92).
    { split_clips (pitch_std fs) (energy_mean fs)
        (filler_count fs) (pause_count fs); lra. }
    split; [exact Hband |].
    unfold confidence_level.
    destruct (Qle_bool 75 _); [discriminate |].
    destruct (Qle_bool 50 _) eqn:E50; [discriminate |].
    assert (H50 : ~ 50 <= raw_score (pitch_std fs) (energy_mean fs)
                          (filler_count fs) (pause_count fs))
      by (rewrite <- Qle_bool_iff; congruence).
    lra.
  - exists (mkFeatures 200 50 (2 # 100) 0 2 1 2).
    split; [reflexivity | split; reflexivity].
  - exists (mkFeatures 200 20 (2 # 100) 0 0 0 0).
    split; reflexivity.
Qed.

Lemma no_advice_score_band_witness :
  64 <= confidence_score lively_talk <= 92.
Proof.
  destruct (no_advice_score_band lively_talk) as [H _].
  apply H. reflexivity.
Defined.


Lemma msg_energy_fires (ps em : Q) (fc pc : Z) :
  In msg_energy (suggestions_of ps em fc pc) <-> em < 2 # 100.
Proof.
  rewrite suggestions_of_shape, <- Qlt_bool_iff.
  destruct (Qlt_bool ps 20), (Qlt_bool em (2 # 100)),
    (3 <=? fc)%Z, (3 <=? pc)%Z; simpl;
    intuition (try discriminate; auto).
Qed.



(** X3. The advice to speak with more energy is given exactly when low
    energy costs points, that is, when the energy deduction of the score
    is positive. *)
Theorem energy_advice_iff_deduction (fs : FeatureSummary) :
  In msg_energy (suggestions fs) <->
  0 < (1 - normalized_energy (energy_mean fs)) * 25.
Proof.
  unfold suggestions. rewrite msg_energy_fires.
  unfold normalized_energy.
  destruct (clip_cases (energy_mean fs * 50)) as [[H E] | [[H E] | [H E]]];
    rewrite E; split; intros; lra.
Qed.

Lemma clip_cases_gen (x lo hi : Q) :
  lo <= hi ->
  (x < lo /\ Np.clip x lo hi = lo) \/
  (lo <= x <= hi /\ Np.clip x lo hi = x) \/
  (hi < x /\ Np.clip x lo hi = hi).
Proof.
  intros Hb. unfold Np.clip, Np.minimum, Np.maximum.
  destruct (Qlt_le_dec x lo) as [Hx | Hx].
  - destruct (Qlt_le_dec hi lo) as [H | H]; [lra | auto].
  - destruct (Qlt_le_dec hi x) as [H | H].
    + right; right; split; [lra | reflexivity].
    + right; left; split; [lra | reflexivity].
Qed.

(** Two clipped terms are equal once each is split into its cases. *)
Ltac same_clip :=
  try reflexivity;
  match goal with
  | |- Np.clip ?a 0 1 == Np.clip ?b 0 1 =>
      destruct (clip_cases a) as [[? Ea] | [[? Ea] | [? Ea]]];
      destruct (clip_cases b) as [[? Eb] | [[? Eb] | [? Eb]]];
      rewrite Ea, Eb; lra
  end.

Lemma clip_count_saturates (n : Z) (d : positive) :
  Np.clip (inject_Z n * (1 # d)) 0 1
  == Np.clip (inject_Z (Z.min (Z.max n 0) (Z.pos d)) * (1 # d)) 0 1.
Proof.
  destruct (Z_le_gt_dec n 0) as [Hn | Hn].
  - rewrite Z.max_r, Z.min_l by lia.
    assert (Hneg : inject_Z n * (1 # d) <= 0)
      by (unfold Qle, Qmult, inject_Z; simpl; lia).
    assert (Hzero : inject_Z 0 * (1 # d) == 0) by reflexivity.
    same_clip.
  - destruct (Z_le_gt_dec n (Z.pos d)) as [Hle | Hgt].
    + rewrite Z.max_l, Z.min_l by lia. reflexivity.
    + rewrite Z.max_l, Z.min_r by lia.
      assert (Hbig : 1 <= inject_Z n * (1 # d))
        by (unfold Qle, Qmult, inject_Z; simpl; lia).
      assert (Hone : inject_Z (Z.pos d) * (1 # d) == 1)
        by (unfold Qeq, Qmult, inject_Z; simpl; lia).
      same_clip.
Qed.

Lemma energy_advice_iff_deduction_witness :
  In msg_energy (suggestions quiet_talk).
Proof.
  apply (proj2 (energy_advice_iff_deduction quiet_talk)).
  vm_compute. reflexivity.
Defined.

(** X4. The score reads its inputs only through their saturated values:
    the pitch deviation cut to [0, 50], the energy mean cut to
    [0, 0.02], the filler count cut to [0, 10] and the pause count cut
    to [0, 5]. *)
Theorem score_saturates (ps em : Q) (fc pc : Z) :
  score_of ps em fc pc
  == score_of (Np.clip ps 0 50) (Np.clip em 0 (2 # 100))
       (Z.min (Z.max fc 0) 10) (Z.min (Z.max pc 0) 5).
Proof.
  rewrite !score_of_raw.
  assert (Hps : Np.clip (ps / 50) 0 1 == Np.clip (Np.clip ps 0 50 / 50) 0 1).
  { change (ps / 50) with (ps * (1 # 50)).
    change (Np.clip ps 0 50 / 50) with (Np.clip ps 0 50 * (1 # 50)).
    destruct (clip_cases_gen ps 0 50 ltac:(lra))
      as [[? E] | [[? E] | [? E]]]; rewrite E; same_clip. }
  assert (Hem : Np.clip (em * 50) 0 1
                == Np.clip (Np.clip em 0 (2 # 100) * 50) 0 1).
  { destruct (clip_cases_gen em 0 (2 # 100) ltac:(lra))
      as [[? E] | [[? E] | [? E]]]; rewrite E; same_clip. }
  unfold raw_score, normalized_pitch_std, normalized_energy,
    normalized_fillers, normalized_pauses.
  change (inject_Z fc / 10) with (inject_Z fc * (1 # 10)).
  change (inject_Z pc / 5) with (inject_Z pc * (1 # 5)).
  change (inject_Z (Z.min (Z.max fc 0) 10) / 10)
    with (inject_Z (Z.min (Z.max fc 0) 10) * (1 # 10)).
  change (inject_Z (Z.min (Z.max pc 0) 5) / 5)
    with (inject_Z (Z.min (Z.max pc 0) 5) * (1 # 5)).
  pose proof (clip_count_saturates fc 10) as Hfc.
  pose proof (clip_count_saturates pc 5) as Hpc.
  lra.
Qed.

(** ** More on the pause loop *)

Lemma adjacent_gaps_length (spans : list span) (rate : Z) :
  length (adjacent_gaps spans rate) = (length spans - 1)%nat.
Proof.
  induction spans as [| a rest IH]; [reflexivity |].
  destruct rest as [| b rest]; [reflexivity |].
  change (adjacent_gaps (a :: b :: rest) rate)
    with (gap_between a b rate :: adjacent_gaps (b :: rest) rate).
  cbn [length] in *. rewrite IH. lia.
Qed.

(** X5. The pause count never exceeds the number of spans less one, so
    the advice to minimise long pauses (three pauses or more) needs at
    least four voiced spans. *)
Theorem pause_count_at_most_gaps (spans : list span) (rate : Z)
  (ps em : Q) (fc : Z) :
  (0 < rate)%Z ->
  let pause_count := snd (detect_pauses spans rate) in
  (pause_count <= Z.of_nat (length spans - 1))%Z /\
  (In msg_pauses (suggestions_of ps em fc pause_count) ->
   (4 <= length spans)%nat).
Proof.
  intros _. cbv zeta.
  destruct (detect_pauses_spec spans rate) as [Hc _].
  assert (Hle : (snd (detect_pauses spans rate)
                 <= Z.of_nat (length spans - 1))%Z).
  { rewrite Hc, <- (adjacent_gaps_length spans rate). unfold pauses.
    apply inj_le, filter_length_le. }
  split; [exact Hle |].
  rewrite suggestions_of_shape. intros Hin.
  destruct (3 <=? snd (detect_pauses spans rate))%Z eqn:E.
  - apply Z.leb_le in E. lia.
  - destruct (Qlt_bool ps 20), (Qlt_bool em (2 # 100)), (3 <=? fc)%Z;
      simpl in Hin; intuition discriminate.
Qed.

Lemma pause_count_at_most_gaps_witness :
  (snd (detect_pauses three_bursts 22050) <= 3)%Z.
Proof.
  destruct (pause_count_at_most_gaps three_bursts 22050 0 0 0) as [H _];
    [reflexivity |].
  exact H.
Defined.

Lemma total_filter_le (gaps : list Q) :
  Forall (fun g => 0 <= g) gaps ->
  0 <= total (filter is_pause gaps) <= total gaps.
Proof.
  induction 1 as [| g gaps Hg _ IH]; simpl; [lra |].
  destruct (is_pause g); simpl; lra.
Qed.

Lemma gap_between_scaled (a b : span) (rate : Z) :
  gap_between a b rate == inject_Z (fst b - snd a) * / inject_Z rate.
Proof. reflexivity. Qed.

Lemma last_cons_default {A : Type} (l : list A) (x d : A) :
  last (x :: l) d = last l x.
Proof.
  revert x d. induction l as [| y l IH]; intros x d; [reflexivity |].
  change (last (x :: y :: l) d) with (last (y :: l) d).
  rewrite (IH y d). symmetry. apply IH.
Qed.

(** For ordered spans every gap is non-negative, and the gaps together
    fit between the end of the first span and the start of the last. *)
Lemma adjacent_gaps_fit (rest : list span) (rate : Z) (a b : span) :
  (0 < rate)%Z -> ordered_spans (a :: b :: rest) ->
  Forall (fun g => 0 <= g) (adjacent_gaps (a :: b :: rest) rate) /\
  total (adjacent_gaps (a :: b :: rest) rate)
  <= inject_Z (fst (last rest b) - snd a) * / inject_Z rate.
Proof.
  intros Hrate. revert a b.
  assert (Hk : 0 < / inject_Z rate).
  { apply Qinv_lt_0_compat. change 0 with (inject_Z 0).
    rewrite <- Zlt_Qlt. exact Hrate. }
  induction rest as [| c rest IH]; intros a b Hord;
    change (adjacent_gaps (a :: b :: ?l) rate)
      with (gap_between a b rate :: adjacent_gaps (b :: l) rate);
    destruct Hord as (Ha & Hab & Hrest);
    assert (Hgap : 0 <= gap_between a b rate)
      by (rewrite gap_between_scaled;
          apply Qmult_le_0_compat; [| lra];
          change 0 with (inject_Z 0); rewrite <- Zle_Qle; lia).
  - cbn [adjacent_gaps total last]. split; [repeat constructor; exact Hgap |].
    rewrite gap_between_scaled. lra.
  - destruct (IH b c Hrest) as [Hpos Hfit].
    split; [constructor; assumption |].
    cbn [total].
    rewrite (last_cons_default rest c b).
    rewrite gap_between_scaled.
    assert (Hb : (fst b <= snd b)%Z) by (destruct Hrest; assumption).
    assert (Hsum : inject_Z (fst b - snd a)
                   + inject_Z (fst (last rest c) - snd b)
                   <= inject_Z (fst (last rest c) - snd a)).
    { rewrite <- inject_Z_plus, <- Zle_Qle. lia. }
    apply Qle_trans with
      ((inject_Z (fst b - snd a) + inject_Z (fst (last rest c) - snd b))
       * / inject_Z rate).
    + lra.
    + apply Qmult_le_compat_r; [exact Hsum | lra].
Qed.

(** X6. For ordered spans and a positive rate the total silence is at
    most the time from the end of the first span to the start of the
    last one, and it is never negative. *)
Theorem total_silence_fits_recording (first second : span)
  (rest : list span) (rate : Z) :
  (0 < rate)%Z -> ordered_spans (first :: second :: rest) ->
  let total_silence_duration :=
    fst (detect_pauses (first :: second :: rest) rate) in
  0 <= total_silence_duration /\
  total_silence_duration
  <= inject_Z (fst (last rest second) - snd first) / inject_Z rate.
Proof.
  intros Hrate Hord. cbv zeta.
  destruct (detect_pauses_spec (first :: second :: rest) rate) as [_ Ht].
  destruct (adjacent_gaps_fit rest rate first second Hrate Hord)
    as [Hpos Hfit].
  pose proof (total_filter_le _ Hpos) as Hle.
  rewrite Ht. unfold pauses, Qdiv. split; lra.
Qed.

Lemma total_silence_fits_recording_witness :
  fst (detect_pauses three_bursts 22050) <= inject_Z (88200 - 22050) / 22050.
Proof.
  destruct (total_silence_fits_recording (0, 22050)%Z (33075, 44100)%Z
              [(46305, 66150); (88200, 99225)]%Z 22050)
    as [_ H].
  - reflexivity.
  - simpl. lia.
  - exact H.
Defined.

(** ** More on the normaliser *)






(** ** The loop over the pitch frames *)

Lemma argmax_from_spec (xs : list Q) (best : Q) (best_i i : nat) :
  (best_i < i)%nat ->
  let r := Np.argmax_from best best_i i xs in
  let v := if (r <? i)%nat then best else nth (r - i) xs 0 in
  (r = best_i \/ (i <= r < i + length xs)%nat) /\
  best <= v /\ Forall (fun x => x <= v) xs.
Proof.
  revert best best_i i.
  induction xs as [| x rest IH]; intros best best_i i Hlt; cbv zeta.
  - cbn [Np.argmax_from]. apply Nat.ltb_lt in Hlt as Hb. rewrite Hb.
    split; [left; reflexivity | split; [lra | constructor]].
  - cbn [Np.argmax_from length].
    destruct (Qlt_le_dec best x) as [Hbx | Hbx].
    + destruct (IH x i (S i) (Nat.lt_succ_diag_r i)) as (Hr & Hv & Hall).
      cbv zeta in Hr, Hv, Hall.
      set (r := Np.argmax_from x i (S i) rest) in *.
      assert (Hri : (i <= r)%nat) by lia.
      apply Nat.ltb_ge in Hri as Hb. rewrite Hb.
      assert (E : nth (r - i) (x :: rest) 0
                  = if (r <? S i)%nat then x else nth (r - S i) rest 0).
      { destruct (r <? S i)%nat eqn:C.
        - apply Nat.ltb_lt in C. replace (r - i)%nat with 0%nat by lia.
          reflexivity.
        - apply Nat.ltb_ge in C.
          replace (r - i)%nat with (S (r - S i)) by lia. reflexivity. }
      rewrite E.
      split; [right; lia | split; [lra | constructor; assumption]].
    + destruct (IH best best_i (S i) (Nat.lt_lt_succ_r _ _ Hlt))
        as (Hr & Hv & Hall).
      cbv zeta in Hr, Hv, Hall.
      set (r := Np.argmax_from best best_i (S i) rest) in *.
      assert (E : (if (r <? i)%nat then best else nth (r - i) (x :: rest) 0)
                  = if (r <? S i)%nat then best else nth (r - S i) rest 0).
      { destruct Hr as [-> | Hr].
        - apply Nat.ltb_lt in Hlt as Hb. rewrite Hb.
          assert (Hb' : (best_i <? S i)%nat = true)
            by (apply Nat.ltb_lt; lia).
          rewrite Hb'. reflexivity.
        - assert (Hb : (r <? i)%nat = false) by (apply Nat.ltb_ge; lia).
          assert (Hb' : (r <? S i)%nat = false) by (apply Nat.ltb_ge; lia).
          rewrite Hb, Hb'.
          replace (r - i)%nat with (S (r - S i)) by lia. reflexivity. }
      rewrite E.
      split; [destruct Hr; [left; assumption | right; lia] |].
      split; [exact Hv | constructor; [lra | exact Hall]].
Qed.

(** The row chosen in a frame holds a greatest magnitude of the frame. *)
Lemma strongest_bin_spec (magnitudes : matrix) (t i : nat) :
  (i < length magnitudes)%nat ->
  (strongest_bin magnitudes t < length magnitudes)%nat /\
  entry magnitudes i t <= entry magnitudes (strongest_bin magnitudes t) t.
Proof.
  intros Hi.
  assert (Hentry : forall k, (k < length magnitudes)%nat ->
            entry magnitudes k t = nth k (column magnitudes t) 0).
  { intros k Hk. unfold entry, column.
    rewrite (nth_indep (map (fun row => nth t row 0) magnitudes)
               0 (nth t [] 0))
      by (rewrite length_map; exact Hk).
    symmetry. apply (map_nth (fun row => nth t row 0)). }
  assert (Hlen : length (column magnitudes t) = length magnitudes)
    by apply length_map.
  unfold strongest_bin.
  destruct (column magnitudes t) as [| x rest] eqn:Ecol.
  { simpl in Hlen. lia. }
  destruct (argmax_from_spec rest x 0 1 Nat.lt_0_1) as (Hr & Hbest & Hall).
  cbv zeta in Hr, Hbest, Hall.
  set (r := Np.argmax_from x 0 1 rest) in *.
  assert (Hrlt : (r < length magnitudes)%nat)
    by (rewrite <- Hlen; cbn [length]; lia).
  assert (Hv : (if (r <? 1)%nat then x else nth (r - 1) rest 0)
               = nth r (x :: rest) 0).
  { destruct (r <? 1)%nat eqn:C.
    - apply Nat.ltb_lt in C. replace r with 0%nat by lia. reflexivity.
    - apply Nat.ltb_ge in C.
      replace r with (S (r - 1)) at 2 by lia. reflexivity. }
  rewrite Hv in Hall, Hbest.
  split; [exact Hrlt |].
  rewrite (Hentry i Hi), (Hentry r Hrlt).
  assert (Hfull : Forall (fun v => v <= nth r (x :: rest) 0) (x :: rest))
    by (constructor; assumption).
  rewrite Forall_forall in Hfull. apply Hfull, nth_In.
  rewrite Hlen. exact Hi.
Qed.

Lemma collect_pitches_as_filter (pitches magnitudes : matrix)
  (frames : list nat) (kept : list Q) :
  frames = [] \/ magnitudes <> [] ->
  collect_pitches pitches magnitudes frames kept
  = Ok (kept ++ filter (fun p => Qlt_bool 50 p)
                  (map (fun t => entry pitches (strongest_bin magnitudes t) t)
                       frames)).
Proof.
  intros Hm. revert kept.
  induction frames as [| t frames IH]; intros kept.
  - cbn. rewrite app_nil_r. reflexivity.
  - destruct Hm as [Hm | Hm]; [discriminate |].
    cbn [collect_pitches map filter]. unfold strongest_bin.
    destruct magnitudes as [| row rows]; [congruence |].
    cbn [column map Np.argmax bind].
    rewrite IH by (right; discriminate).
    unfold strongest_bin. cbn [column map].
    destruct (Qlt_bool 50 _); [rewrite <- app_assoc |]; reflexivity.
Qed.

(** X8. The loop over the frames never raises.  It keeps, in frame
    order, the pitch found at the strongest bin of each frame (a row
    holding a greatest magnitude of that frame) whenever that pitch is
    above 50 Hz, so every kept pitch exceeds 50 and there is at most one
    per frame. *)
Theorem pitch_loop_keeps_voiced (pitches magnitudes : matrix) :
  exists pitch_values : list Q,
    collect_pitches pitches magnitudes (seq 0 (shape1 magnitudes)) []
      = Ok pitch_values /\
    pitch_values
      = filter (fun p => Qlt_bool 50 p)
          (map (fun t => entry pitches (strongest_bin magnitudes t) t)
               (seq 0 (shape1 magnitudes))) /\
    Forall (fun p => 50 < p) pitch_values /\
    (length pitch_values <= shape1 magnitudes)%nat /\
    (forall t i, (i < length magnitudes)%nat ->
       (strongest_bin magnitudes t < length magnitudes)%nat /\
       entry magnitudes i t
       <= entry magnitudes (strongest_bin magnitudes t) t).
Proof.
  eexists. split; [| split; [reflexivity |]].
  - rewrite collect_pitches_as_filter; [reflexivity |].
    destruct magnitudes; [left; reflexivity | right; discriminate].
  - split; [| split].
    + apply Forall_forall. intros p Hp.
      apply filter_In in Hp as [_ Hp]. apply Qlt_bool_iff, Hp.
    + etransitivity; [apply filter_length_le |].
      rewrite length_map, length_seq. apply Nat.le_refl.
    + intros t i Hi. apply strongest_bin_spec, Hi.
Qed.

Lemma pitch_loop_keeps_voiced_witness :
  collect_pitches sample_pitches sample_magnitudes [0; 1]%nat [] = Ok [200] /\
  entry sample_magnitudes 0 0
  <= entry sample_magnitudes (strongest_bin sample_magnitudes 0) 0.
Proof.
  destruct (pitch_loop_keeps_voiced sample_pitches sample_magnitudes)
    as (pv & H1 & H2 & _ & _ & H5).
  rewrite H2 in H1. split; [exact H1 |].
  apply (H5 0%nat 0%nat). simpl. lia.
Defined.

(** ** More on the pitch smoothing *)

Lemma insert_sorted_in (x v : Q) (l : list Q) :
  In v (insert_sorted x l) <-> v = x \/ In v l.
Proof.
  induction l as [| h t IH]; simpl.
  - intuition.
  - destruct (Qle_bool x h); simpl; [intuition |].
    rewrite IH. intuition.
Qed.

Lemma insert_sorted_length (x : Q) (l : list Q) :
  length (insert_sorted x l) = S (length l).
Proof.
  induction l as [| h t IH]; simpl; [reflexivity |].
  destruct (Qle_bool x h); simpl; [reflexivity | rewrite IH; reflexivity].
Qed.

Lemma sort_in (v : Q) (l : list Q) : In v (sort l) <-> In v l.
Proof.
  unfold sort. induction l as [| h t IH]; simpl; [reflexivity |].
  rewrite insert_sorted_in, IH. intuition.
Qed.

Lemma sort_length (l : list Q) : length (sort l) = length l.
Proof.
  unfold sort. induction l as [| h t IH]; simpl; [reflexivity |].
  rewrite insert_sorted_length, IH. reflexivity.
Qed.

Lemma reflect_lt (n : nat) (idx : Z) : (0 < n)%nat -> (reflect n idx < n)%nat.
Proof.
  intros Hn. unfold reflect. cbv zeta.
  pose proof (Z.mod_pos_bound idx (2 * Z.of_nat n) ltac:(lia)) as Hm.
  destruct (idx mod (2 * Z.of_nat n) <? Z.of_nat n)%Z eqn:C.
  - apply Z.ltb_lt in C. lia.
  - apply Z.ltb_ge in C. lia.
Qed.

Lemma window_incl (xs : list Q) (size i : nat) :
  xs <> [] -> incl (window xs size i) xs.
Proof.
  intros Hne v Hv. unfold window in Hv.
  apply in_map_iff in Hv as (k & <- & _).
  apply nth_In, reflect_lt. destruct xs; [congruence | simpl; lia].
Qed.

Lemma rank_median_in (w : list Q) : w <> [] -> In (rank_median w) w.
Proof.
  intros Hne. unfold rank_median. apply sort_in, nth_In.
  rewrite sort_length. apply Nat.div_lt; [| lia].
  destruct w; [congruence | simpl; lia].
Qed.

Lemma median_filter_incl (xs : list Q) : incl (median_filter xs 5) xs.
Proof.
  intros v Hv. unfold median_filter in Hv.
  apply in_map_iff in Hv as (i & <- & Hi). apply in_seq in Hi.
  assert (Hne : xs <> []) by (destruct xs; [simpl in Hi; lia | discriminate]).
  apply (window_incl xs 5 i Hne), rank_median_in.
  unfold window. discriminate.
Qed.

Lemma smooth_incl (xs : list Q) : incl (smooth xs) xs.
Proof.
  unfold smooth. destruct (5 <? length xs)%nat;
    [apply median_filter_incl | apply incl_refl].
Qed.

Lemma smooth_keeps_values_forall (P : Q -> Prop) (xs : list Q) :
  Forall P xs -> Forall P (smooth xs).
Proof.
  intros HP. rewrite Forall_forall in *.
  intros v Hv. apply HP, (smooth_incl xs), Hv.
Qed.

(** X9. Smoothing keeps the length of the pitch series and invents no
    value: every entry of the smoothed series is an entry of the series
    itself, so any bound that holds for all pitches still holds after
    smoothing. *)
Theorem smooth_keeps_values (xs : list Q) :
  length (smooth xs) = length xs /\
  incl (smooth xs) xs /\
  (forall P : Q -> Prop, Forall P xs -> Forall P (smooth xs)).
Proof.
  split; [| split; [apply smooth_incl |]].
  - unfold smooth. destruct (5 <? length xs)%nat;
      [apply median_filter_length | reflexivity].
  - intros P. apply smooth_keeps_values_forall.
Qed.

Lemma smooth_keeps_values_witness :
  Forall (fun p => 50 < p) (smooth spiky_series).
Proof.
  destruct (smooth_keeps_values spiky_series) as (_ & _ & H).
  apply H. repeat constructor.
Defined.

Lemma insert_sorted_ascending (x : Q) (l : list Q) :
  ascending l -> ascending (insert_sorted x l).
Proof.
  induction l as [| h t IH]; intros Hasc.
  - simpl. split; [constructor | exact I].
  - cbn [insert_sorted]. destruct Hasc as [Hh Ht].
    destruct (Qle_bool x h) eqn:C.
    + apply Qle_bool_iff in C. cbn [ascending].
      split; [| split; assumption].
      constructor; [exact C |].
      eapply Forall_impl; [| exact Hh]. intros y Hy. cbv beta in *. lra.
    + assert (Hhx : h <= x).
      { destruct (Qlt_le_dec h x) as [H | H]; [lra |].
        apply Qle_bool_iff in H. congruence. }
      cbn [ascending]. split; [| apply IH, Ht].
      apply Forall_forall. intros y Hy.
      apply insert_sorted_in in Hy as [-> | Hy]; [exact Hhx |].
      rewrite Forall_forall in Hh. apply Hh, Hy.
Qed.

Lemma sort_ascending (l : list Q) : ascending (sort l).
Proof.
  unfold sort. induction l as [| h t IH]; simpl; [exact I |].
  apply insert_sorted_ascending, IH.
Qed.

Lemma count_insert_sorted (p : Q -> bool) (x : Q) (l : list Q) :
  length (filter p (insert_sorted x l)) = length (filter p (x :: l)).
Proof.
  induction l as [| h t IH]; [reflexivity |].
  cbn [insert_sorted]. destruct (Qle_bool x h); [reflexivity |].
  cbn [filter] in *. destruct (p h), (p x); cbn [length] in *; lia.
Qed.

Lemma count_sort (p : Q -> bool) (l : list Q) :
  length (filter p (sort l)) = length (filter p l).
Proof.
  unfold sort. induction l as [| h t IH]; [reflexivity |].
  cbn [fold_right]. rewrite count_insert_sorted.
  cbn [filter]. destruct (p h); cbn [length]; rewrite IH; reflexivity.
Qed.

Lemma filter_none (p : Q -> bool) (l : list Q) :
  (forall y, In y l -> p y = false) -> filter p l = [].
Proof.
  induction l as [| h t IH]; intros H; [reflexivity |].
  cbn [filter]. rewrite (H h (or_introl eq_refl)).
  apply IH. intros y Hy. apply H. right. exact Hy.
Qed.

Lemma ascending_nth_le (c : Q) (l : list Q) (k : nat) :
  ascending l -> (k < count_le c l)%nat -> nth k l 0 <= c.
Proof.
  unfold count_le. revert k.
  induction l as [| h t IH]; intros k Hasc Hk; [simpl in Hk; lia |].
  destruct Hasc as [Hh Ht]. cbn [filter] in Hk.
  destruct (Qle_bool h c) eqn:C.
  - apply Qle_bool_iff in C. destruct k as [| k]; [exact C |].
    cbn [nth]. apply IH; [exact Ht |]. cbn [length] in Hk. lia.
  - assert (Hnone : filter (fun x => Qle_bool x c) t = []).
    { apply filter_none. intros y Hy.
      rewrite Forall_forall in Hh. specialize (Hh y Hy).
      destruct (Qle_bool y c) eqn:Cy; [| reflexivity].
      apply Qle_bool_iff in Cy.
      assert (Hhc : h <= c) by lra.
      apply Qle_bool_iff in Hhc. congruence. }
    rewrite Hnone in Hk. simpl in Hk. lia.
Qed.

Lemma ascending_nth_ge (c : Q) (l : list Q) (k : nat) :
  ascending l -> (length l - count_ge c l <= k)%nat -> (k < length l)%nat ->
  c <= nth k l 0.
Proof.
  unfold count_ge. revert k.
  induction l as [| h t IH]; intros k Hasc Hk Hlt; [simpl in Hlt; lia |].
  destruct Hasc as [Hh Ht]. cbn [filter length] in Hk.
  pose proof (filter_length_le (fun x => Qle_bool c x) t) as Hbound.
  destruct (Qle_bool c h) eqn:C.
  - apply Qle_bool_iff in C. destruct k as [| k]; [exact C |].
    cbn [nth]. rewrite Forall_forall in Hh.
    apply Qle_trans with h; [exact C |].
    apply Hh, nth_In. cbn [length] in Hlt. lia.
  - cbn [length] in Hlt. destruct k as [| k]; [lia |].
    cbn [nth]. apply IH; [exact Ht | lia | lia].
Qed.

(** A value that more than half of the window is at most, and more than
    half of the window is at least, is the median. *)
Lemma rank_median_majority (c : Q) (w : list Q) :
  (length w < 2 * count_le c w)%nat -> (length w < 2 * count_ge c w)%nat ->
  rank_median w == c.
Proof.
  intros Hle Hge. unfold rank_median.
  pose proof (sort_ascending w) as Hasc.
  pose proof (sort_length w) as Hlen.
  assert (Hdiv : (2 * (length w / 2) <= length w)%nat)
    by (apply Nat.Div0.mul_div_le).
  apply Qle_antisym.
  - apply ascending_nth_le; [exact Hasc |].
    unfold count_le in *. rewrite count_sort. lia.
  - assert (Hcnt : (count_ge c w <= length w)%nat)
      by (unfold count_ge; apply filter_length_le).
    assert (Hup : (length w < 2 * (length w / 2) + 2)%nat).
    { pose proof (Nat.div_mod_eq (length w) 2) as E.
      pose proof (Nat.mod_upper_bound (length w) 2 ltac:(lia)). lia. }
    apply ascending_nth_ge; [exact Hasc | |].
    + unfold count_ge in *. rewrite count_sort, Hlen. lia.
    + rewrite Hlen. lia.
Qed.

(** The median of five values of which all but at most two equal [c]. *)
Lemma median5_mostly (c v0 v1 v2 v3 v4 : Q) (s0 s1 s2 s3 s4 : Prop) :
  (s0 \/ v0 == c) -> (s1 \/ v1 == c) -> (s2 \/ v2 == c) ->
  (s3 \/ v3 == c) -> (s4 \/ v4 == c) ->
  ~ (s0 /\ s1 /\ s2) -> ~ (s0 /\ s1 /\ s3) -> ~ (s0 /\ s1 /\ s4) ->
  ~ (s0 /\ s2 /\ s3) -> ~ (s0 /\ s2 /\ s4) -> ~ (s0 /\ s3 /\ s4) ->
  ~ (s1 /\ s2 /\ s3) -> ~ (s1 /\ s2 /\ s4) -> ~ (s1 /\ s3 /\ s4) ->
  ~ (s2 /\ s3 /\ s4) ->
  rank_median [v0; v1; v2; v3; v4] == c.
Proof.
  intros H0 H1 H2 H3 H4 D1 D2 D3 D4 D5 D6 D7 D8 D9 D10.
  assert (Heq : forall v, v == c ->
            Qle_bool v c = true /\ Qle_bool c v = true).
  { intros v E. split; apply Qle_bool_iff; rewrite E; apply Qle_refl. }
  apply rank_median_majority; unfold count_le, count_ge; cbn [filter];
    destruct H0 as [S0 | E0]; destruct H1 as [S1 | E1];
    destruct H2 as [S2 | E2]; destruct H3 as [S3 | E3];
    destruct H4 as [S4 | E4]; try (exfalso; tauto);
    repeat match goal with
           | E : _ == c |- _ =>
               let Ha := fresh "Ha" in
               let Hb := fresh "Hb" in
               destruct (Heq _ E) as [Ha Hb]; clear E;
               rewrite ?Ha, ?Hb; clear Ha Hb
           end;
    repeat match goal with
           | |- context [Qle_bool ?a ?b] => destruct (Qle_bool a b)
           end;
    cbn [length]; lia.
Qed.

(** X10. Smoothing removes a lone spike: when a series of more than five
    pitches equals one value everywhere except at a single position, the
    smoothed series equals that value everywhere. *)
Theorem smooth_removes_lone_spike (c : Q) (j : nat) (xs : list Q) :
  (5 < length xs)%nat -> flat_except c j xs ->
  length (smooth xs) = length xs /\
  Forall (fun v => v == c) (smooth xs).
Proof.
  intros Hn Hflat.
  assert (Hb : (5 <? length xs)%nat = true) by (apply Nat.ltb_lt, Hn).
  unfold smooth. rewrite Hb.
  split; [apply median_filter_length |].
  unfold median_filter. rewrite Forall_map. apply Forall_forall.
  intros i Hi. apply in_seq in Hi.
  unfold window. cbn [seq map]. change (Z.of_nat (5 / 2)) with 2%Z.
  assert (Hcase : i = 0%nat \/ i = 1%nat \/ (2 <= i < length xs - 2)%nat \/
                  i = (length xs - 2)%nat \/ i = (length xs - 1)%nat) by lia.
  destruct Hcase as [-> | [-> | [Hmid | [-> | ->]]]];
    settle_reflect;
    match goal with
    | |- rank_median [nth ?r0 xs 0; nth ?r1 xs 0; nth ?r2 xs 0;
                      nth ?r3 xs 0; nth ?r4 xs 0] == c =>
        apply (median5_mostly c _ _ _ _ _
                 (r0 = j) (r1 = j) (r2 = j) (r3 = j) (r4 = j))
    end;
    try (match goal with
         | |- ?r = j \/ _ =>
             destruct (Nat.eq_dec r j) as [E | E];
             [left; exact E | right; apply Hflat; [lia | exact E]]
         end);
    intros (? & ? & ?); lia.
Qed.

Lemma smooth_removes_lone_spike_witness :
  Forall (fun v => v == 120) (smooth spiky_series).
Proof.
  destruct (smooth_removes_lone_spike 120 2 spiky_series) as [_ H].
  - simpl. lia.
  - intros k Hk Hne.
    do 7 (destruct k as [| k]; [try congruence; reflexivity |]).
    simpl in Hk. lia.
  - exact H.
Defined.

(** ** The analysis as a whole *)

Lemma mean_defined (xs : list Q) : xs <> [] -> exists m, Np.mean xs = Ok m.
Proof. destruct xs; [congruence | intros _; eexists; reflexivity]. Qed.

Lemma std_defined (sqrt : Q -> Q) (xs : list Q) :
  xs <> [] -> exists s, Np.std sqrt xs = Ok s.
Proof.
  intros Hne. unfold Np.std.
  destruct (mean_defined xs Hne) as [m ->]. cbn [bind].
  destruct (mean_defined (map (fun x => (x - m) * (x - m)) xs)) as [v ->].
  - destruct xs; [congruence | discriminate].
  - cbn [bind]. eauto.
Qed.

Lemma guarded_defined {A : Type} (xs : list Q) (f : list Q -> result A)
  (d : A) :
  (xs <> [] -> exists a, f xs = Ok a) ->
  exists a, (if (0 <? length xs)%nat then f xs else Ok d) = Ok a.
Proof.
  intros Hf. destruct xs as [| x xs]; [eexists; reflexivity |].
  apply Hf. discriminate.
Qed.



Lemma fold_plus_above (c : Q) (xs : list Q) (a : Q) :
  Forall (fun p => c < p) xs ->
  a + c * inject_Z (Z.of_nat (length xs)) <= fold_left Qplus xs a /\
  (xs <> [] -> a + c * inject_Z (Z.of_nat (length xs)) < fold_left Qplus xs a).
Proof.
  intros Hall. revert a.
  induction Hall as [| x xs Hx _ IH]; intros a.
  - cbn [length fold_left]. change (inject_Z (Z.of_nat 0)) with 0.
    split; [lra | congruence].
  - cbn [length fold_left].
    rewrite Nat2Z.inj_succ, <- Z.add_1_r, inject_Z_plus.
    change (inject_Z 1) with 1.
    destruct (IH (a + x)) as [Hle _].
    split; [| intros _]; lra.
Qed.

Lemma mean_above (c : Q) (xs : list Q) (m : Q) :
  Forall (fun p => c < p) xs -> Np.mean xs = Ok m -> c < m.
Proof.
  intros Hall Hm. destruct xs as [| x xs]; [discriminate |].
  injection Hm as <-. unfold Np.sum.
  destruct (fold_plus_above c (x :: xs) 0 Hall) as [_ Hlt].
  specialize (Hlt ltac:(discriminate)).
  apply Qlt_shift_div_l.
  - unfold Qlt, inject_Z. cbn [Qnum Qden length]. lia.
  - change (Z.pos (Pos.of_succ_nat (length xs)))
      with (Z.of_nat (length (x :: xs))).
    lra.
Qed.

(** X12. Whatever the library returns, a result of the analysis has a
    score between 0 and 100, counts that are not negative, a total
    silence that is not negative, and a pitch mean that is either 0 (no
    frame had a pitch above 50 Hz, and then the pitch deviation is 0 as
    well) or above 50; and its level is "Needs Improvement" only if some
    suggestion is given. *)
Theorem analysis_result_invariants (L : AudioLib) (y : list Q) (rate : Z)
  (r : AnalysisResult) :
  analyze_voice y rate = Ok r ->
  0 <= score r <= 100 /\
  (0 <= filler_count (features r))%Z /\
  (0 <= pause_count (features r))%Z /\
  0 <= total_silence_duration (features r) /\
  ((pitch_mean (features r) = 0 /\ pitch_std (features r) = 0) \/
   50 < pitch_mean (features r)) /\
  (advice r = [] -> level r <> "Needs Improvement"%string).
Proof.
  unfold analyze_voice. intros H.
  apply bind_ok in H as (yn & _ & H).
  destruct (piptrack yn rate 80 600) as [pitches magnitudes].
  apply bind_ok in H as (pitch_values & Hpv & H).
  apply bind_ok in H as (ps & Hps & H).
  apply bind_ok in H as (pm & Hpm & H).
  apply bind_ok in H as (em & _ & H).
  apply bind_ok in H as (es & _ & H).
  pose proof (detect_pauses_spec (effects_split yn 30) rate) as [Hc Ht].
  destruct (detect_pauses (effects_split yn 30) rate) as [ts pc].
  cbn [fst snd] in Hc, Ht.
  apply bind_ok in H as (smoothed & _ & H).
  injection H as <-.
  cbn [score features level advice filler_count pause_count
       total_silence_duration pitch_mean pitch_std].
  split; [rewrite score_of_raw; apply raw_score_range |].
  split; [unfold filler_count_of; apply Z.div_pos; lia |].
  split; [lia |].
  split.
  { rewrite Ht.
    assert (Hall : Forall (fun g => 25 # 100 < g)
                     (pauses (effects_split yn 30) rate)).
    { apply Forall_forall. intros g Hg. unfold pauses in Hg.
      apply filter_In in Hg as [_ Hg]. apply is_pause_iff, Hg. }
    destruct (total_of_pauses _ Hall) as [Hle _].
    assert (0 <= inject_Z (Z.of_nat
              (length (pauses (effects_split yn 30) rate)))).
    { change 0 with (inject_Z 0). rewrite <- Zle_Qle. lia. }
    lra. }
  split.
  - rewrite collect_pitches_as_filter in Hpv
      by (destruct magnitudes; [left; reflexivity | right; discriminate]).
    injection Hpv as <-. cbn [app] in *.
    set (pv := smooth _) in *.
    destruct pv as [| p pv'] eqn:Epv.
    + cbn in Hps, Hpm. injection Hps as <-. injection Hpm as <-.
      left. split; reflexivity.
    + right. change (0 <? length (p :: pv'))%nat with true in Hpm.
      cbv iota in Hpm. apply (mean_above 50 _ _) in Hpm; [exact Hpm |].
      rewrite <- Epv. subst pv.
      apply smooth_keeps_values_forall, Forall_forall.
      intros q Hq. apply filter_In in Hq as [_ Hq].
      apply Qlt_bool_iff, Hq.
  - intros Hnil. apply suggestions_of_nil in Hnil as (H1 & H2 & H3 & H4).
    rewrite score_of_raw.
    assert (Hfc' : inject_Z (filler_count_of
                     (find_peaks smoothed (1 # 100) 1000)) <= inject_Z 2)
      by (apply (proj1 (inject_Z_le _ _)); lia).
    assert (Hpc' : inject_Z pc <= inject_Z 2)
      by (apply (proj1 (inject_Z_le _ _)); lia).
    change (inject_Z 2) with 2 in Hfc', Hpc'.
    assert (Hband : 64 <= raw_score ps em
                      (filler_count_of (find_peaks smoothed (1 # 100) 1000))
                      pc).
    { split_clips ps em
        (filler_count_of (find_peaks smoothed (1 # 100) 1000)) pc; lra. }
    unfold confidence_level.
    destruct (Qle_bool 75 _); [discriminate |].
    destruct (Qle_bool 50 _) eqn:E50; [discriminate |].
    assert (H50 : ~ 50 <= raw_score ps em
                    (filler_count_of (find_peaks smoothed (1 # 100) 1000))
                    pc)
      by (rewrite <- Qle_bool_iff; congruence).
    lra.
Qed.

Lemma analysis_result_invariants_witness :
  exists r : AnalysisResult,
    analyze_voice (L := toy_lib) steady_tone 22050 = Ok r /\
    0 <= score r <= 100.
Proof.
  assert (E : exists r, analyze_voice (L := toy_lib) steady_tone 22050 = Ok r).
  { vm_compute. eexists. reflexivity. }
  destruct E as [r E]. exists r. split; [exact E |].
  destruct (analysis_result_invariants toy_lib steady_tone 22050 r E)
    as [H _].
  exact H.
Defined.

(** ** The envelope *)

Lemma skipn_repeat (c : Q) (k m : nat) :
  skipn k (repeat c m) = repeat c (m - k).
Proof.
  revert m. induction k as [| k IH]; intros m.
  - rewrite Nat.sub_0_r. reflexivity.
  - destruct m as [| m]; [reflexivity | apply IH].
Qed.

Lemma firstn_repeat (c : Q) (n m : nat) :
  (n <= m)%nat -> firstn n (repeat c m) = repeat c n.
Proof.
  revert m. induction n as [| n IH]; intros m Hn; [reflexivity |].
  destruct m as [| m]; [lia |].
  cbn [repeat firstn]. f_equal. apply IH. lia.
Qed.

Lemma dot_repeat_l (c : Q) (v : list Q) :
  Np.dot (repeat c (length v)) v == c * total v.
Proof.
  induction v as [| w v IH]; cbn [length repeat Np.dot total]; [lra |].
  rewrite IH. lra.
Qed.

Lemma dot_repeat_r (c : Q) (l : list Q) :
  Np.dot l (repeat c (length l)) == c * total l.
Proof.
  induction l as [| x l IH]; cbn [length repeat Np.dot total]; [lra |].
  rewrite IH. lra.
Qed.

Lemma total_app (l1 l2 : list Q) : total (l1 ++ l2) == total l1 + total l2.
Proof.
  induction l1 as [| x l1 IH]; cbn [app total]; [lra | rewrite IH; lra].
Qed.

Lemma total_rev (l : list Q) : total (rev l) == total l.
Proof.
  induction l as [| x l IH]; cbn [rev total]; [reflexivity |].
  rewrite total_app, IH. cbn [total]. lra.
Qed.

Lemma total_nonneg (l : list Q) : Forall (fun x => 0 <= x) l -> 0 <= total l.
Proof. induction 1; cbn [total]; lra. Qed.

Lemma in_slice (m k : nat) (l : list Q) (x : Q) :
  In x (firstn m (skipn k l)) -> In x l.
Proof.
  intros H. rewrite <- (firstn_skipn k l). apply in_or_app. right.
  rewrite <- (firstn_skipn m (skipn k l)). apply in_or_app. left. exact H.
Qed.

(** Convolution with a constant kernel, in both orders of length. *)
Lemma convolve_constant_kernel (a : list Q) (m : nat) (c : Q) :
  a <> [] -> (0 < m)%nat ->
  exists out,
    Np.convolve_valid a (repeat c m) = Ok out /\
    length out
      = (Nat.max (length a) m - Nat.min (length a) m + 1)%nat /\
    ((m <= length a)%nat ->
     forall k, (k < length out)%nat ->
       nth k out 0 == c * total (firstn m (skipn k a))) /\
    ((length a < m)%nat -> forall v, In v out -> v == c * total a).
Proof.
  intros Ha Hm.
  rewrite (convolve_valid_defined a (repeat c m) Ha)
    by (destruct m; [lia | discriminate]).
  rewrite repeat_length.
  destruct (length a <? m)%nat eqn:C.
  - apply Nat.ltb_lt in C. eexists. split; [reflexivity |].
    rewrite length_map, length_seq, repeat_length.
    split; [lia | split; [lia |]].
    intros _ v Hv. apply in_map_iff in Hv as (k & <- & Hk).
    apply in_seq in Hk.
    rewrite skipn_repeat, firstn_repeat by lia.
    rewrite <- (length_rev a) at 1.
    rewrite dot_repeat_l, total_rev. reflexivity.
  - apply Nat.ltb_ge in C. eexists. split; [reflexivity |].
    rewrite length_map, length_seq, repeat_length.
    split; [lia | split; [| lia]].
    intros _ k Hk.
    rewrite (nth_indep _ 0
               (Np.dot (firstn m (skipn 0 a)) (rev (repeat c m))))
      by (rewrite length_map, length_seq; exact Hk).
    rewrite (map_nth (fun k => Np.dot (firstn m (skipn k a))
                                      (rev (repeat c m)))).
    rewrite seq_nth by exact Hk. cbn [Nat.add].
    rewrite rev_repeat.
    assert (Hlen : length (firstn m (skipn k a)) = m)
      by (rewrite length_firstn, length_skipn; lia).
    rewrite <- Hlen at 2. apply dot_repeat_r.
Qed.

(** X13. The envelope of a non-empty buffer is always defined and never
    negative.  For a buffer of at least 1000 samples it has
    [len - 999] entries, each the mean of 1000 consecutive absolute
    samples; for a shorter buffer it has [1001 - len] entries, all equal
    to the sum of the absolute samples divided by 1000. *)
Theorem envelope_is_moving_average (y : list Q) :
  y <> [] ->
  exists smoothed,
    Np.convolve_valid (Np.abs y) (Np.ones_over 1000 1000) = Ok smoothed /\
    Forall (fun v => 0 <= v) smoothed /\
    ((1000 <= length y)%nat ->
     length smoothed = (length y - 999)%nat /\
     forall k, (k < length smoothed)%nat ->
       nth k smoothed 0
       == total (firstn 1000 (skipn k (Np.abs y))) / 1000) /\
    ((length y < 1000)%nat ->
     length smoothed = (1001 - length y)%nat /\
     forall v, In v smoothed -> v == total (Np.abs y) / 1000).
Proof.
  intros Hne.
  assert (Hlen : length (Np.abs y) = length y) by apply length_map.
  assert (Habs : Forall (fun x => 0 <= x) (Np.abs y)).
  { unfold Np.abs. rewrite Forall_map. apply Forall_forall.
    intros x _. apply Qabs_nonneg. }
  destruct (convolve_constant_kernel (Np.abs y) 1000 (1 / 1000))
    as (out & Hout & Hl & Hlong & Hshort).
  { destruct y; [congruence | discriminate]. }
  { lia. }
  rewrite Hlen in *.
  assert (Hscale : forall t, 1 / 1000 * t == t / 1000).
  { intros t. change (1 / 1000) with (1 # 1000).
    change (t / 1000) with (t * (1 # 1000)). lra. }
  exists out. split; [exact Hout |].
  assert (Hcases : (1000 <= length y)%nat \/ (length y < 1000)%nat) by lia.
  split; [| split].
  - destruct Hcases as [Hc | Hc].
    + apply Forall_forall. intros v Hv.
      destruct (In_nth out v 0 Hv) as (k & Hk & <-).
      rewrite (Hlong Hc k Hk), Hscale.
      apply Qle_shift_div_l; [reflexivity |].
      rewrite Qmult_0_l. apply total_nonneg.
      apply Forall_forall. intros x Hx. rewrite Forall_forall in Habs.
      apply Habs. apply (in_slice _ _ _ _ Hx).
    + apply Forall_forall. intros v Hv.
      rewrite (Hshort Hc v Hv), Hscale.
      apply Qle_shift_div_l; [reflexivity |].
      rewrite Qmult_0_l. apply total_nonneg, Habs.
  - intros Hc. split; [rewrite Hl; lia |].
    intros k Hk. rewrite (Hlong Hc k Hk). apply Hscale.
  - intros Hc. split; [rewrite Hl; lia |].
    intros v Hv. rewrite (Hshort Hc v Hv). apply Hscale.
Qed.

Lemma envelope_is_moving_average_witness :
  exists smoothed,
    Np.convolve_valid (Np.abs loud_buffer) (Np.ones_over 1000 1000)
      = Ok smoothed /\
    length smoothed = 997%nat.
Proof.
  destruct (envelope_is_moving_average loud_buffer)
    as (smoothed & H & _ & _ & Hshort); [discriminate |].
  exists smoothed. split; [exact H |].
  apply Hshort. simpl. lia.
Defined.

(** ** Recording *)




Lemma int16_of_range (lo hi : Byte.byte) :
  (-32768 <= int16_of lo hi <= 32767)%Z.
Proof.
  unfold int16_of. cbv zeta.
  pose proof (Byte.to_N_bounded lo). pose proof (Byte.to_N_bounded hi).
  destruct (_ <? 32768)%Z eqn:C;
    [apply Z.ltb_lt in C | apply Z.ltb_ge in C]; lia.
Qed.

Lemma frombuffer_int16_spec (n : nat) (data : list Byte.byte) :
  (length data <= n)%nat ->
  (Nat.even (length data) = true ->
   exists samples,
     frombuffer_int16 data = Ok samples /\
     length data = (2 * length samples)%nat /\
     Forall (fun v => (-32768 <= v <= 32767)%Z) samples) /\
  (Nat.even (length data) = false ->
   frombuffer_int16 data = Err ValueError).
Proof.
  revert data. induction n as [| n IH]; intros data Hlen.
  - destruct data; [| simpl in Hlen; lia].
    split; [intros _; exists []; repeat split; constructor | discriminate].
  - destruct data as [| lo [| hi rest]].
    + split; [intros _; exists []; repeat split; constructor | discriminate].
    + split; [discriminate | reflexivity].
    + cbn [length] in Hlen.
      destruct (IH rest ltac:(lia)) as [Heven Hodd].
      change (Nat.even (length (lo :: hi :: rest)))
        with (Nat.even (length rest)).
      cbn [frombuffer_int16]. split.
      * intros He. destruct (Heven He) as (samples & -> & Hl & Hall).
        cbn [bind]. eexists. split; [reflexivity |].
        cbn [length]. split; [lia |].
        constructor; [apply int16_of_range | exact Hall].
      * intros Ho. rewrite (Hodd Ho). reflexivity.
Qed.

(** X15. Decoding a byte buffer as 16-bit samples succeeds exactly on
    buffers of even size; it yields one sample for every two bytes, and
    every sample lies between -32768 and 32767.  A buffer of odd size
    raises [ValueError]. *)
Theorem frombuffer_int16_halves (data : list Byte.byte) :
  (Nat.even (length data) = true ->
   exists samples,
     frombuffer_int16 data = Ok samples /\
     length data = (2 * length samples)%nat /\
     Forall (fun v => (-32768 <= v <= 32767)%Z) samples) /\
  (Nat.even (length data) = false ->
   frombuffer_int16 data = Err ValueError).
Proof. apply (frombuffer_int16_spec (length data)), Nat.le_refl. Qed.

Lemma frombuffer_int16_halves_witness :
  frombuffer_int16 [Byte.x00; Byte.x80; Byte.xff; Byte.x7f; Byte.xff]
  = Err ValueError /\
  exists samples,
    frombuffer_int16 [Byte.x00; Byte.x80; Byte.xff; Byte.x7f] = Ok samples.
Proof.
  split.
  - apply (frombuffer_int16_halves
             [Byte.x00; Byte.x80; Byte.xff; Byte.x7f; Byte.xff]).
    reflexivity.
  - destruct (frombuffer_int16_halves
                [Byte.x00; Byte.x80; Byte.xff; Byte.x7f]) as [H _].
    destruct (H eq_refl) as (samples & Hs & _). eauto.
Defined.

Lemma record_frames_length (turns : nat) (s : stream)
  (frames : list (list Byte.byte)) :
  length (concat (fst (record_frames turns s frames)))
  = (length (concat frames) + turns * (2 * Z.to_nat CHUNK))%nat.
Proof.
  revert s frames. induction turns as [| turns IH]; intros s frames.
  - cbn [record_frames fst]. lia.
  - cbn [record_frames]. unfold stream_read. cbv zeta.
    rewrite IH, concat_app, length_app. cbn [concat].
    rewrite app_nil_r, length_map, length_seq. lia.
Qed.

Lemma even_double (k : nat) : Nat.even (2 * k) = true.
Proof. rewrite Nat.even_mul. reflexivity. Qed.

(** What the analysis does with a non-empty buffer: it returns, or it
    fails on an empty list of energy frames. *)
Lemma analyze_voice_on_nonempty (L : AudioLib) (y : list Q) (rate : Z) :
  y <> [] ->
  (exists r, analyze_voice y rate = Ok r) \/
  analyze_voice y rate = Err DivisionByZero.
Proof.
  intros Hne.
  destruct (normalize_defined y Hne) as (peak & _ & _ & Hn).
  set (yn := map (fun x => x / (peak + epsilon)) y) in *.
  assert (Hyn : yn <> [])
    by (subst yn; destruct y; [congruence | discriminate]).
  unfold analyze_voice. rewrite Hn. cbn [bind].
  destruct (piptrack yn rate 80 600) as [pitches magnitudes].
  rewrite collect_pitches_as_filter
    by (destruct magnitudes; [left; reflexivity | right; discriminate]).
  cbn [bind app].
  set (pv := smooth _).
  destruct (guarded_defined pv (Np.std sqrt) 0 (std_defined sqrt pv))
    as [ps ->].
  destruct (guarded_defined pv Np.mean 0 (mean_defined pv)) as [pm ->].
  cbn [bind].
  destruct (rms yn) as [| e energy] eqn:Erms; [right; reflexivity |].
  left.
  destruct (mean_defined (e :: energy) ltac:(discriminate)) as [em ->].
  destruct (std_defined sqrt (e :: energy) ltac:(discriminate)) as [es ->].
  cbn [bind].
  destruct (detect_pauses (effects_split yn 30) rate) as [ts pc].
  destruct (convolve_valid_ok (Np.abs yn) (Np.ones_over 1000 1000))
    as [smoothed ->].
  { destruct yn; [congruence | discriminate]. }
  { discriminate. }
  cbn [bind]. eauto.
Qed.

(** X16. Whatever the device delivers, a recording consists of 107
    chunks, that is 109568 samples (short of the 110250 samples of five
    seconds), each between -32768 and 32767; decoding never fails, the
    buffer passed to the analysis is never empty, and so recording never
    ends in the [ValueError] of an empty buffer. *)
Theorem record_and_process_buffer (L : AudioLib) (s : stream) :
  exists samples : list Z,
    Z.of_nat (length samples) = 109568%Z /\
    Forall (fun v => (-32768 <= v <= 32767)%Z) samples /\
    record_and_process s = analyze_voice (map inject_Z samples) RATE /\
    record_and_process s <> Err ValueError.
Proof.
  unfold record_and_process.
  pose proof (record_frames_length (reads RATE CHUNK RECORD_SECONDS) s [])
    as Hlen.
  assert (Hn : reads RATE CHUNK RECORD_SECONDS = 107%nat) by reflexivity.
  set (n := reads RATE CHUNK RECORD_SECONDS) in *. clearbody n.
  assert (Hc : Z.of_nat (Z.to_nat CHUNK) = 1024%Z) by reflexivity.
  set (c := Z.to_nat CHUNK) in *. clearbody c.
  change (length (concat (@nil (list Byte.byte)))) with 0%nat in Hlen.
  destruct (record_frames n s []) as [frames s'].
  cbn [fst] in Hlen.
  destruct (frombuffer_int16_spec _ (concat frames) (Nat.le_refl _))
    as [Heven _].
  destruct Heven as (samples & Hs & Hl & Hall).
  { rewrite Hlen, Nat.add_0_l, Nat.even_mul, (Nat.even_mul 2 c).
    apply orb_true_r. }
  exists samples. rewrite Hs. cbn [bind].
  assert (Hcount : Z.of_nat (length samples) = 109568%Z) by (subst n; lia).
  split; [exact Hcount | split; [exact Hall | split; [reflexivity |]]].
  destruct (analyze_voice_on_nonempty L (map inject_Z samples) RATE)
    as [[r ->] | ->]; try discriminate.
  destruct samples; [simpl in Hcount; lia | discriminate].
Qed.

(** ** How many peaks fit into a buffer *)

Lemma spaced_from_bound (d n prev : nat) (peaks : list nat) :
  spaced_from d prev peaks -> Forall (fun p => (p < n)%nat) peaks ->
  peaks <> [] -> (prev + d * length peaks < n)%nat.
Proof.
  revert prev. induction peaks as [| p rest IH]; intros prev Hs Hall Hne;
    [congruence |].
  destruct Hs as [Hp Hrest]. inversion Hall as [| ? ? Hpn Hrn]; subst.
  destruct rest as [| q rest'].
  - cbn [length]. lia.
  - specialize (IH p Hrest Hrn ltac:(discriminate)).
    cbn [length] in *. lia.
Qed.

Lemma spaced_count (d n : nat) (peaks : list nat) :
  spaced d n peaks -> peaks <> [] -> (d * (length peaks - 1) < n)%nat.
Proof.
  intros [Hall Hs] Hne. destruct peaks as [| p rest]; [congruence |].
  inversion Hall as [| ? ? Hpn Hrn]; subst.
  destruct rest as [| q rest'].
  - cbn [length]. lia.
  - pose proof (spaced_from_bound d n p (q :: rest') Hs Hrn
                  ltac:(discriminate)).
    cbn [length] in *. lia.
Qed.

Lemma normalize_length (y out : list Q) :
  normalize y = Ok out -> y <> [] /\ length out = length y.
Proof.
  intros H. destruct y as [| x y'] eqn:E; [discriminate |].
  split; [discriminate |].
  destruct (normalize_defined (x :: y') ltac:(discriminate))
    as (peak & _ & _ & Hn).
  rewrite Hn in H. injection H as <-.
  apply (length_map (fun x => x / (peak + epsilon)) (x :: y')).
Qed.

(** X17. With a peak finder that keeps neighbouring peaks at least the
    requested 1000 samples apart, a buffer holds at most one peak per
    1000 envelope entries: the filler advice needs a buffer of at least
    90000 samples, and a buffer of at most 109568 samples (a recording)
    has a filler count of at most 3. *)
Theorem filler_count_bounded_by_length (L : AudioLib) (y : list Q)
  (rate : Z) (r : AnalysisResult) :
  PeakSpacing L -> analyze_voice y rate = Ok r ->
  (In msg_fillers (advice r) -> (90000 <= Z.of_nat (length y))%Z) /\
  ((Z.of_nat (length y) <= 109568)%Z -> (filler_count (features r) <= 3)%Z).
Proof.
  unfold analyze_voice. intros Hlaw H.
  apply bind_ok in H as (yn & Hnorm & H).
  destruct (normalize_length y yn Hnorm) as [Hne Hlen].
  destruct (piptrack yn rate 80 600) as [pitches magnitudes].
  apply bind_ok in H as (pitch_values & _ & H).
  apply bind_ok in H as (ps & _ & H).
  apply bind_ok in H as (pm & _ & H).
  apply bind_ok in H as (em & _ & H).
  apply bind_ok in H as (es & _ & H).
  destruct (detect_pauses (effects_split yn 30) rate) as [ts pc].
  apply bind_ok in H as (smoothed & Hconv & H).
  injection H as <-.
  cbn [features filler_count advice].
  destruct (convolve_constant_kernel (Np.abs yn) 1000 (1 / 1000))
    as (out & Hout & Hl & _).
  { destruct yn; [simpl in Hlen; destruct y; [congruence | discriminate] |
                  discriminate]. }
  { lia. }
  change (repeat (1 / 1000) 1000) with (Np.ones_over 1000 1000) in Hout.
  rewrite Hconv in Hout. injection Hout as <-.
  assert (Habs : length (Np.abs yn) = length y)
    by (unfold Np.abs; rewrite length_map; exact Hlen).
  rewrite Habs in Hl.
  pose proof (Hlaw smoothed (1 # 100) 1000%nat) as Hsp.
  set (peaks := find_peaks smoothed (1 # 100) 1000) in *.
  pose proof (filler_count_of_floor peaks) as Hfloor. cbv zeta in Hfloor.
  assert (Hcount : peaks <> [] ->
            (1000 * (Z.of_nat (length peaks) - 1)
             < Z.of_nat (length smoothed))%Z).
  { intros Hp. pose proof (spaced_count 1000 _ peaks Hsp Hp).
    destruct peaks; [congruence |]. cbn [length] in *. lia. }
  split.
  - intros Hin. apply msg_fillers_fires in Hin.
    assert (Hp : peaks <> []).
    { intros E. rewrite E in Hfloor, Hin. cbn [length] in Hfloor. lia. }
    specialize (Hcount Hp). lia.
  - intros Hshort.
    destruct peaks as [| p rest] eqn:E.
    + change (filler_count_of []) with 0%Z. lia.
    + specialize (Hcount ltac:(discriminate)). lia.
Qed.

Lemma thin_spaced_from (d : nat) (q : nat) (ps : list nat) :
  spaced_from d q (thin d (Some q) ps).
Proof.
  revert q. induction ps as [| p rest IH]; intros q; [exact I |].
  cbn [thin]. destruct (q + d <=? p)%nat eqn:C; [| apply IH].
  apply Nat.leb_le in C. split; [exact C | apply IH].
Qed.

Lemma thin_incl (d : nat) (last : option nat) (ps : list nat) :
  incl (thin d last ps) ps.
Proof.
  revert last. induction ps as [| p rest IH]; intros last v Hv;
    [exact Hv |].
  cbn [thin] in Hv. destruct last as [q |].
  - destruct (q + d <=? p)%nat.
    + destruct Hv as [-> | Hv]; [left; reflexivity | right; eapply IH, Hv].
    + right. eapply IH, Hv.
  - destruct Hv as [-> | Hv]; [left; reflexivity | right; eapply IH, Hv].
Qed.

Lemma toy_lib_spaced_spacing : PeakSpacing toy_lib_spaced.
Proof.
  intros x height distance. cbn [find_peaks toy_lib_spaced]. split.
  - apply Forall_forall. intros p Hp. apply thin_incl in Hp.
    unfold positions_reaching in Hp. apply filter_In in Hp as [Hp _].
    apply in_seq in Hp. lia.
  - destruct (positions_reaching height x) as [| p rest];
      [exact I | apply thin_spaced_from].
Qed.

Lemma filler_count_bounded_by_length_witness :
  exists r : AnalysisResult,
    analyze_voice (L := toy_lib_spaced) steady_tone 22050 = Ok r /\
    (filler_count (features r) <= 3)%Z.
Proof.
  assert (E : exists r,
            analyze_voice (L := toy_lib_spaced) steady_tone 22050 = Ok r).
  { vm_compute. eexists. reflexivity. }
  destruct E as [r E]. exists r. split; [exact E |].
  destruct (filler_count_bounded_by_length toy_lib_spaced steady_tone 22050 r
              toy_lib_spaced_spacing E) as [_ H].
  apply H. vm_compute. discriminate.
Defined.
